(** * EnigmaNet: class-and-site mean imputation and minority-class analysis

    A shallow embedding of [classfill] and [minorityclass], which occur in
    two files of the repository:

      - src/enigmalibrary/enigmatransforms.py      (module [EnigmaTransforms])
      - src/transformations/enigmatransformations.py
                                                   (module [EnigmaTransformations])

    The functions work on pandas data frames and call a handful of numpy
    routines.  The part of pandas and numpy they use is modelled first
    (section [Pandas]), the text of the two functions second (section
    [Source]), and the properties of the functions last.

    Modelling choices, all of them visible in the definitions below:

      - a cell is [option num], [None] being NaN; [num] is any type with
        decidable equality and [mean] any function from a non-empty list
        of numbers to a cell, so that every theorem holds for exact as
        well as for rounded arithmetic (a mean may itself be NaN);
      - a data frame is the list of its labelled columns, rows are
        addressed by position, column labels are distinct strings;
      - a label slice [a:b] follows pandas' [Index.slice_locs]: a
        boundary that is not a label of the frame raises [KeyError]
        unless the labels are sorted, in which case the slice starts
        or ends at the place where the boundary would be inserted;
      - exceptions are values of [exn]; the caller's frame is an
        explicit state that survives an exception;
      - the column slice [dFrame.loc[:, a:b]] is either a view of the
        caller's frame or a copy of it, which pandas decides from the
        frame's memory layout: the flag [slice_is_view] covers both;
      - the chained assignment [data.iloc[:, col][mask] = v] writes
        into [data], as pandas does without copy-on-write. *)

From Stdlib Require Import ZArith QArith String Ascii Lia.
From stdpp Require Import prelude.

Set Warnings "-clear-no-such-hyp".

Local Open Scope Z_scope.
Local Open Scope nat_scope.
Local Open Scope string_scope.
Local Open Scope list_scope.

(** ** Exceptions and the two monads *)

Inductive exn : Set :=
  | KeyError      (* a column label that the frame does not have *)
  | NameError     (* a global name that the module does not bind *)
  | ValueError    (* numpy: argmin or argmax of an empty sequence *)
  | IndexError.   (* a position outside a sequence *)

Inductive result (A : Type) : Type :=
  | Ok (a : A)
  | Raise (e : exn).
Arguments Ok {A} a.
Arguments Raise {A} e.

#[global] Instance exn_eq_dec : EqDecision exn.
Proof. solve_decision. Defined.

#[global] Instance result_ret : MRet result := fun A a => Ok a.
#[global] Instance result_bind : MBind result := fun A B k m =>
  match m with Ok a => k a | Raise e => Raise e end.
#[global] Instance result_fmap : FMap result := fun A B f m =>
  match m with Ok a => Ok (f a) | Raise e => Raise e end.

(** The names a module binds at its top level.  Only [np] matters:
    enigmatransforms.py starts with [import numpy as np],
    enigmatransformations.py has no import at all. *)
Record globals : Set := Globals { has_np : bool }.

(** A reference to the global name [np]. *)
Definition global_np (g : globals) : result unit :=
  if has_np g then Ok tt else Raise NameError.

(** A cell holds a number or is missing ([None], pandas' NaN); a series
    is a column of cells, a mask a column of booleans, a data frame the
    list of its labelled columns. *)
Abbreviation cell num := (option num).
Abbreviation NaN := (@None _) (only parsing).
Abbreviation series num := (list (cell num)).
Abbreviation mask := (list bool).
Abbreviation DataFrame num := (list (string * series num)).

Section Pandas.

Context {num : Type} `{!EqDecision num}.

#[local] Abbreviation cell := (cell num).
#[local] Abbreviation series := (series num).
#[local] Abbreviation DataFrame := (DataFrame num).

(** numpy's mean of a non-empty list of numbers (no NaN among them). *)
Variable mean : list num -> option num.

(** Whether a label slice of a frame shares its memory with the frame. *)
Variable slice_is_view : bool.

(** ** Series and masks *)

(** [x == v] on cells: NaN equals nothing, not even NaN. *)
Definition cell_eq (x v : cell) : bool :=
  match x, v with
  | Some a, Some b => bool_decide (a = b)
  | _, _ => false
  end.

(** [s == v]: the boolean series of the rows equal to [v]. *)
Definition eq_scalar (s : series) (v : cell) : mask :=
  map (fun x => cell_eq x v) s.

(** [s.isnull()] *)
Definition isnull (s : series) : mask :=
  map (fun x => match x with None => true | Some _ => false end) s.

(** [a & b] *)
Definition mask_and (a b : mask) : mask := zip_with andb a b.

(** [np.sum(m)] of a boolean series: the number of its true rows. *)
Definition np_sum (m : mask) : Z :=
  Z.of_nat (length (filter (fun b => b = true) m)).

(** [s[m]]: the rows of [s] at which [m] holds. *)
Fixpoint select (s : series) (m : mask) : series :=
  match s, m with
  | x :: s', b :: m' => if b then x :: select s' m' else select s' m'
  | _, _ => []
  end.

(** [s[m] = v]: [v] written into the rows of [s] at which [m] holds. *)
Fixpoint assign_where (s : series) (m : mask) (v : cell) : series :=
  match s, m with
  | x :: s', b :: m' => (if b then v else x) :: assign_where s' m' v
  | _, _ => s
  end.

(** The numbers of a series, NaN dropped. *)
Definition dropna (s : series) : list num := omap id s.

(** [np.nanmean(s)]: the mean of the numbers of [s]; NaN (with a
    warning, not an exception) when [s] holds no number. *)
Definition nanmean (s : series) : cell :=
  match dropna s with
  | [] => NaN
  | vs => mean vs
  end.

(** [s.unique()]: the distinct cells, each at the place of its first
    appearance; all missing cells count as one value. *)
Fixpoint unique (s : series) : list cell :=
  match s with
  | [] => []
  | x :: s' => x :: filter (fun y => y <> x) (unique s')
  end.

(** [np.zeros(n, dtype=int)] *)
Definition np_zeros (n : nat) : list Z := replicate n 0%Z.

(** [np.argmin(l)]: the first position of the least element. *)
Fixpoint argmin_from (best_i : nat) (best : Z) (i : nat) (l : list Z) : nat :=
  match l with
  | [] => best_i
  | x :: l' =>
      if (x <? best)%Z then argmin_from i x (S i) l'
      else argmin_from best_i best (S i) l'
  end.

Definition np_argmin (l : list Z) : result nat :=
  match l with
  | [] => Raise ValueError
  | x :: l' => Ok (argmin_from 0 x 1 l')
  end.

(** [np.argmax(l)]: the first position of the greatest element. *)
Fixpoint argmax_from (best_i : nat) (best : Z) (i : nat) (l : list Z) : nat :=
  match l with
  | [] => best_i
  | x :: l' =>
      if (best <? x)%Z then argmax_from i x (S i) l'
      else argmax_from best_i best (S i) l'
  end.

Definition np_argmax (l : list Z) : result nat :=
  match l with
  | [] => Raise ValueError
  | x :: l' => Ok (argmax_from 0 x 1 l')
  end.

(** [l[i]] *)
Definition index {A : Type} (l : list A) (i : nat) : result A :=
  match l !! i with
  | Some x => Ok x
  | None => Raise IndexError
  end.

(** ** Data frames *)

Definition columns (df : DataFrame) : list string := df.*1.

(** Number of rows: the common length of the columns. *)
Definition nrows (df : DataFrame) : nat :=
  match df with
  | [] => 0
  | c :: _ => length c.2
  end.

(** A frame is rectangular: its columns have one length. *)
Definition rectangular (df : DataFrame) : Prop :=
  Forall (fun c => length c.2 = nrows df) df.

(** [Index.get_loc]: the position of a label. *)
Fixpoint get_loc (idx : list string) (lbl : string) : result nat :=
  match idx with
  | [] => Raise KeyError
  | l :: idx' => if String.eqb l lbl then Ok 0 else S <$> get_loc idx' lbl
  end.

(** [df[lbl]] and [df.loc[:, lbl]] *)
Definition getitem (df : DataFrame) (lbl : string) : result series :=
  k ← get_loc (columns df) lbl;
  snd <$> index df k.

(** [Index.is_monotonic_increasing] and [is_monotonic_decreasing]; Python
    orders strings by code point, which is the order of their bytes. *)
Fixpoint is_monotonic_increasing (idx : list string) : bool :=
  match idx with
  | a :: (b :: _) as idx' => String.leb a b && is_monotonic_increasing idx'
  | _ => true
  end.

Fixpoint is_monotonic_decreasing (idx : list string) : bool :=
  match idx with
  | a :: (b :: _) as idx' => String.leb b a && is_monotonic_decreasing idx'
  | _ => true
  end.

Inductive side : Set := Left | Right.

(** [Index.searchsorted] on an increasing index: the labels below the
    insertion point are those smaller than [lbl] (or not greater, on
    the right side). *)
Definition searchsorted (idx : list string) (lbl : string) (sd : side) : nat :=
  length (filter (fun l => (match sd with
                            | Left => String.ltb l lbl
                            | Right => String.leb l lbl
                            end) = true) idx).

(** [Index._searchsorted_monotonic] *)
Definition searchsorted_monotonic (idx : list string) (lbl : string) (sd : side)
  : result nat :=
  if is_monotonic_increasing idx then Ok (searchsorted idx lbl sd)
  else if is_monotonic_decreasing idx then
    let pos := searchsorted (reverse idx) lbl
                 (match sd with Left => Right | Right => Left end) in
    Ok (length idx - pos)
  else Raise ValueError.

(** [Index.get_slice_bound]: the position of the label; of a label that
    is absent, the insertion point when the index is sorted, and
    the [KeyError] of the failed lookup when it is not. *)
Definition get_slice_bound (idx : list string) (lbl : string) (sd : side)
  : result nat :=
  match get_loc idx lbl with
  | Ok k => Ok (match sd with Left => k | Right => S k end)
  | Raise err =>
      match searchsorted_monotonic idx lbl sd with
      | Ok pos => Ok pos
      | Raise _ => Raise err
      end
  end.

(** [Index.slice_locs]: the half-open range of positions of [a:b]. *)
Definition slice_locs (idx : list string) (rng : string * string)
  : result (nat * nat) :=
  lo ← get_slice_bound idx rng.1 Left;
  hi ← get_slice_bound idx rng.2 Right;
  Ok (lo, hi).

(** The columns of [df] at the positions [lo <= k < hi]. *)
Definition cols_between (df : DataFrame) (lo hi : nat) : DataFrame :=
  take (hi - lo) (drop lo df).

(** The values of [data] written over the columns [lo <= k < hi] of [df]. *)
Definition set_cols_between (df : DataFrame) (lo hi : nat) (data : DataFrame)
  : DataFrame :=
  imap (fun k c =>
          if bool_decide (lo <= k < hi) then
            match data !! (k - lo) with
            | Some d => (c.1, d.2)
            | None => c
            end
          else c) df.

(** ** The heap: the caller's frame and the local frame [data] *)

Record heap : Type := Heap {
  h_dFrame : DataFrame;    (* the object the caller passed *)
  h_data : DataFrame;      (* the object bound to [data] *)
  h_base : option nat      (* [Some lo]: [data] is a view of the columns
                              of [dFrame] from position [lo] on *)
}.

(** State and exception; the state survives an exception. *)
Definition M (A : Type) : Type := heap -> result A * heap.

#[global] Instance M_ret : MRet M := fun A a h => (Ok a, h).
#[global] Instance M_bind : MBind M := fun A B k m h =>
  match m h with
  | (Ok a, h') => k a h'
  | (Raise e, h') => (Raise e, h')
  end.

Definition raise {A : Type} (e : exn) : M A := fun h => (Raise e, h).
Definition lift {A : Type} (r : result A) : M A := fun h => (r, h).
Definition get_dFrame : M DataFrame := fun h => (Ok (h_dFrame h), h).
Definition get_data : M DataFrame := fun h => (Ok (h_data h), h).

(** A reference to [np] in the course of a call. *)
Definition lookup_np (g : globals) : M unit := lift (global_np g).

(** [for x in xs: body(x)] *)
Fixpoint for_each {A : Type} (xs : list A) (body : A -> M unit) : M unit :=
  match xs with
  | [] => mret tt
  | x :: xs' => body x ≫= fun _ => for_each xs' body
  end.

(** [data = dFrame.loc[:, a:b]] *)
Definition bind_data (rng : string * string) : M unit := fun h =>
  match slice_locs (columns (h_dFrame h)) rng with
  | Ok (lo, hi) =>
      (Ok tt, Heap (h_dFrame h) (cols_between (h_dFrame h) lo hi)
                   (if slice_is_view then Some lo else None))
  | Raise e => (Raise e, h)
  end.

(** [data.iloc[:, col]] *)
Definition data_iloc (col : nat) : M series := fun h =>
  (snd <$> index (h_data h) col, h).

(** [data.iloc[:, col][m] = v]; the write reaches the caller's frame at
    once when [data] is a view of it. *)
Definition data_iloc_assign (col : nat) (m : mask) (v : cell) : M unit := fun h =>
  let write := fun c : string * series => (c.1, assign_where c.2 m v) in
  (Ok tt,
   Heap (match h_base h with
         | Some lo => alter write (lo + col) (h_dFrame h)
         | None => h_dFrame h
         end)
        (alter write col (h_data h))
        (h_base h)).

(** [dFrame.loc[:, a:b] = data] *)
Definition store_data (rng : string * string) : M unit := fun h =>
  match slice_locs (columns (h_dFrame h)) rng with
  | Ok (lo, hi) =>
      (Ok tt, Heap (set_cols_between (h_dFrame h) lo hi (h_data h))
                   (h_data h) (h_base h))
  | Raise e => (Raise e, h)
  end.

End Pandas.

Arguments heap num : clear implicits.
Arguments M num A : clear implicits.

(** ** The text of the two functions

    Both files hold the same text of [classfill] and [minorityclass]; what
    differs is the module around it, hence the names the text can refer
    to.  The text is embedded once, over the globals [g] of its module. *)

Section Source.

Context {num : Type} `{!EqDecision num}.
Variable mean : list num -> option num.
Variable slice_is_view : bool.
Variable g : globals.

#[local] Abbreviation cell := (cell num).
#[local] Abbreviation DataFrame := (DataFrame num).
#[local] Abbreviation M := (M num).
#[local] Abbreviation nanmean := (nanmean mean).
#[local] Abbreviation bind_data := (bind_data slice_is_view).

(** Lines 39 to 43 of enigmatransforms.py: one column of one group. *)
Definition classfill_column (idx : mask) (col : nat) : M unit :=
  s ← data_iloc col;
  let nanIdx := isnull s in
  let nanIdx_i := mask_and nanIdx idx in
  _ ← lookup_np g;
  if (0 <? np_sum nanIdx_i)%Z then
    _ ← lookup_np g;
    s ← data_iloc col;
    let mean := nanmean (select s idx) in
    data_iloc_assign col nanIdx_i mean
  else mret tt.

(** Lines 36 to 43: one class of one site. *)
Definition classfill_class (classCol : string) (siteIdx : mask) (cls : cell)
  : M unit :=
  dFrame ← get_dFrame;
  classSeries ← lift (getitem dFrame classCol);
  let classIdx := eq_scalar classSeries cls in
  let idx := mask_and siteIdx classIdx in
  data ← get_data;
  for_each (seq 0 (length (columns data))) (classfill_column idx).

(** Lines 34 to 43: one site. *)
Definition classfill_site (classCol siteCol : string) (uniqClass : list cell)
    (site : cell) : M unit :=
  dFrame ← get_dFrame;
  siteSeries ← lift (getitem dFrame siteCol);
  let siteIdx := eq_scalar siteSeries site in
  for_each uniqClass (classfill_class classCol siteIdx).

(** Lines 28 to 45; the two [print] calls are left out. *)
Definition classfill_body (classCol siteCol : string) (idxRange : string * string)
  : M DataFrame :=
  dFrame ← get_dFrame;
  uniqClass ← lift (unique <$> getitem dFrame classCol);
  uniqSites ← lift (unique <$> getitem dFrame siteCol);
  _ ← bind_data idxRange;
  _ ← for_each uniqSites (classfill_site classCol siteCol uniqClass);
  _ ← store_data idxRange;
  get_dFrame.

(** A call of [classfill]: what it returns or raises, and the state in
    which it leaves the frame that the caller passed. *)
Definition classfill_text (dFrame : DataFrame) (classCol siteCol : string)
    (idxRange : string * string) : result DataFrame * DataFrame :=
  let '(r, h) := classfill_body classCol siteCol idxRange (Heap dFrame [] None) in
  (r, h_dFrame h).

(** The body of the two nested loops for one (site, class) pair, and
    [classfill] with its pairs visited in the order [enum] instead of
    the order of the nested loops: the subject of the claim that the
    order does not matter. *)
Definition classfill_pair (classCol siteCol : string) (p : cell * cell) : M unit :=
  dFrame ← get_dFrame;
  siteSeries ← lift (getitem dFrame siteCol);
  let siteIdx := eq_scalar siteSeries p.1 in
  classfill_class classCol siteIdx p.2.

Definition classfill_in_order (enum : list cell -> list cell -> list (cell * cell))
    (dFrame : DataFrame) (classCol siteCol : string) (idxRange : string * string)
  : result DataFrame * DataFrame :=
  let body : M DataFrame :=
    dFrame ← get_dFrame;
    uniqClass ← lift (unique <$> getitem dFrame classCol);
    uniqSites ← lift (unique <$> getitem dFrame siteCol);
    _ ← bind_data idxRange;
    _ ← for_each (enum uniqSites uniqClass) (classfill_pair classCol siteCol);
    _ ← store_data idxRange;
    get_dFrame in
  let '(r, h) := body (Heap dFrame [] None) in
  (r, h_dFrame h).

(** Lines 62 to 65: the distinct classes and the number of rows of each. *)
Definition class_counts (dFrame : DataFrame) (classCol : string)
  : result (list cell * list Z) :=
  uniqClass ← unique <$> getitem dFrame classCol;
  _ ← global_np g;
  let nClass := np_zeros (length uniqClass) in
  nClass ← foldl (fun acc '(i, classVal) =>
                    nClass ← acc;
                    _ ← global_np g;
                    classSeries ← getitem dFrame classCol;
                    Ok (<[i := np_sum (eq_scalar classSeries classVal)]> nClass))
                 (Ok nClass) (imap pair uniqClass);
  Ok (uniqClass, nClass).

(** Lines 62 to 70. *)
Definition minorityclass_text (dFrame : DataFrame) (classCol : string)
  : result (cell * Z) :=
  '(uniqClass, nClass) ← class_counts dFrame classCol;
  _ ← global_np g;
  minorIdx ← np_argmin nClass;
  minorClass ← index uniqClass minorIdx;
  _ ← global_np g;
  majorIdx ← np_argmax nClass;
  nMajor ← index nClass majorIdx;
  nMinor ← index nClass minorIdx;
  let disparity := (nMajor - nMinor)%Z in
  Ok (minorClass, disparity).

End Source.

(** ** The two modules *)

(** src/enigmalibrary/enigmatransforms.py: [import numpy as np] is its
    third line. *)
Module EnigmaTransforms.
Definition module_globals : globals := Globals true.

Definition classfill {num : Type} `{!EqDecision num}
    (mean : list num -> option num) (slice_is_view : bool) :=
  classfill_text mean slice_is_view module_globals.

Definition minorityclass {num : Type} `{!EqDecision num} :=
  minorityclass_text (num := num) module_globals.
End EnigmaTransforms.

(** src/transformations/enigmatransformations.py: the file begins with
  [def classfill] and imports nothing, so [np] is unbound in it. *)
Module EnigmaTransformations.
Definition module_globals : globals := Globals false.

Definition classfill {num : Type} `{!EqDecision num}
    (mean : list num -> option num) (slice_is_view : bool) :=
  classfill_text mean slice_is_view module_globals.

Definition minorityclass {num : Type} `{!EqDecision num} :=
  minorityclass_text (num := num) module_globals.
End EnigmaTransformations.

(** ** A concrete instance: exact rational arithmetic *)

#[global] Instance Q_eq_dec : EqDecision Q.
Proof. solve_decision. Defined.

(** The exact mean of a list of rationals, in lowest terms. *)
Definition Qmean (vs : list Q) : option Q :=
  Some (Qred (foldr Qplus 0%Q vs / inject_Z (Z.of_nat (length vs)))).

(** Frames on which the functions are run below.  Sites and classes are
    coded by numbers. *)

(** One site, one class, one feature with a missing cell. *)
Definition frame_one_group : DataFrame Q :=
  [("site", [Some 0%Q; Some 0%Q]);
   ("class", [Some 0%Q; Some 0%Q]);
   ("f", [Some 2%Q; None])].

Definition frame_one_group_filled : DataFrame Q :=
  [("site", [Some 0%Q; Some 0%Q]);
   ("class", [Some 0%Q; Some 0%Q]);
   ("f", [Some 2%Q; Some 2%Q])].

(** Two sites and two classes, each group of one row. *)
Definition frame_singletons : DataFrame Q :=
  [("site", [Some 0%Q; Some 0%Q; Some 1%Q; Some 1%Q]);
   ("class", [Some 0%Q; Some 1%Q; Some 0%Q; Some 1%Q]);
   ("f", [Some 1%Q; None; None; Some 4%Q])].

(** Two groups and two features; the second group has no number in [g]. *)
Definition frame_two_groups : DataFrame Q :=
  [("site", [Some 0%Q; Some 0%Q; Some 0%Q; Some 1%Q; Some 1%Q]);
   ("f", [Some 1%Q; None; Some 2%Q; None; Some 5%Q]);
   ("g", [None; Some 3%Q; Some 4%Q; None; None]);
   ("class", [Some 0%Q; Some 0%Q; Some 0%Q; Some 1%Q; Some 1%Q])].

Definition frame_two_groups_filled : DataFrame Q :=
  [("site", [Some 0%Q; Some 0%Q; Some 0%Q; Some 1%Q; Some 1%Q]);
   ("f", [Some 1%Q; Some (3 # 2)%Q; Some 2%Q; Some 5%Q; Some 5%Q]);
   ("g", [Some (7 # 2)%Q; Some 3%Q; Some 4%Q; None; None]);
   ("class", [Some 0%Q; Some 0%Q; Some 0%Q; Some 1%Q; Some 1%Q])].

(** The three columns of [frame_one_group], without rows. *)
Definition frame_no_rows : DataFrame Q :=
  [("site", []); ("class", []); ("f", [])].

(** A frame whose column labels are in alphabetical order. *)
Definition frame_sorted : DataFrame Q :=
  [("class", [Some 0%Q; Some 0%Q]);
   ("f1", [Some 2%Q; None]);
   ("f2", [None; Some 4%Q]);
   ("site", [Some 0%Q; Some 0%Q])].

Definition frame_sorted_filled : DataFrame Q :=
  [("class", [Some 0%Q; Some 0%Q]);
   ("f1", [Some 2%Q; Some 2%Q]);
   ("f2", [Some 4%Q; Some 4%Q]);
   ("site", [Some 0%Q; Some 0%Q])].

(** The class column [0, 0, 0, 1]. *)
Definition frame_classes : DataFrame Q :=
  [("Dx", [Some 0%Q; Some 0%Q; Some 0%Q; Some 1%Q])].

(** Three classes, two of them with one row each. *)
Definition frame_ties : DataFrame Q :=
  [("Dx", [Some 2%Q; Some 0%Q; Some 2%Q; Some 1%Q])].

(** A class column with one label and three missing entries. *)
Definition frame_class_missing : DataFrame Q :=
  [("Dx", [Some 0%Q; None; None; None])].

(** The class column [0, 0, 0, 1] in another order of the rows. *)
Definition frame_classes_shuffled : DataFrame Q :=
  [("Dx", [Some 1%Q; Some 0%Q; Some 0%Q; Some 0%Q])].

(** A frame whose second row has no site. *)
Definition frame_site_missing : DataFrame Q :=
  [("site", [Some 0%Q; None; Some 0%Q]);
   ("class", [Some 0%Q; Some 0%Q; Some 0%Q]);
   ("f", [Some 1%Q; None; None])].

(** ** What the loops compute

    Pure counterparts of the loops of [classfill], against which the
    monadic text is proved; they speak of one column at a time. *)

Section Groups.

Context {num : Type} `{!EqDecision num}.
Variable mean : list num -> option num.

#[local] Abbreviation cell := (cell num).
#[local] Abbreviation series := (series num).
#[local] Abbreviation DataFrame := (DataFrame num).
#[local] Abbreviation nanmean := (nanmean mean).

(** The effect of lines 39 to 43 on one column, for the rows [idx]. *)
Definition fill_series (idx : mask) (s : series) : series :=
  assign_where s (mask_and (isnull s) idx) (nanmean (select s idx)).

(** The rows of the group of a (site, class) pair: line 37. *)
Definition group_mask (ss cs : series) (p : cell * cell) : mask :=
  mask_and (eq_scalar ss p.1) (eq_scalar cs p.2).

(** One column after the groups [ps] have been filled in turn. *)
Definition fill_groups (ss cs : series) (ps : list (cell * cell)) (s : series)
  : series :=
  foldl (fun s p => fill_series (group_mask ss cs p) s) s ps.

(** The same for every column of a frame. *)
Definition fill_frame (ss cs : series) (ps : list (cell * cell)) (data : DataFrame)
  : DataFrame :=
  (fun c => (c.1, fill_groups ss cs ps c.2)) <$> data.

(** The (site, class) pairs in the order of the two nested loops. *)
Definition loop_pairs (uniqSites uniqClass : list cell) : list (cell * cell) :=
  site ← uniqSites; (fun cls => (site, cls)) <$> uniqClass.

(** The caller's frame while [data] holds the columns [data] of the
    range that starts at [lo]: a view writes through, a copy does not. *)
Definition frame_of (view : bool) (df0 : DataFrame) (lo : nat) (data : DataFrame)
  : DataFrame :=
  if view then set_cols_between df0 lo (lo + length data) data else df0.

Definition heap_of (view : bool) (df0 : DataFrame) (lo : nat) (data : DataFrame)
  : heap num :=
  Heap (frame_of view df0 lo data) data (if view then Some lo else None).

(** The frame that [classfill] leaves: the columns [lo <= k < hi] with
    the groups [ps] filled, the others as they were. *)
Definition filled (df0 : DataFrame) (lo hi : nat) (ss cs : series)
    (ps : list (cell * cell)) : DataFrame :=
  set_cols_between df0 lo hi (fill_frame ss cs ps (cols_between df0 lo hi)).

(** The rows of the group of site [a] and class [b], and the numbers
    that the group has in a column. *)
Definition in_group (ss cs : series) (a b : num) (r : nat) : Prop :=
  ss !! r = Some (Some a) /\ cs !! r = Some (Some b).

Definition group_values (ss cs : series) (a b : num) (s : series) : list num :=
  dropna (select s (group_mask ss cs (Some a, Some b))).

(** [classfill] finds its columns: the class column [cs], the site
    column [ss] and the feature range, the positions [lo <= k < hi]. *)
Definition located (df : DataFrame) (classCol siteCol : string)
    (idxRange : string * string) (ss cs : series) (lo hi : nat) : Prop :=
  getitem df classCol = Ok cs /\ getitem df siteCol = Ok ss /\
  slice_locs (columns df) idxRange = Ok (lo, hi).

(** The number of rows of the class column that equal [v]: line 65. *)
Definition class_count (col : series) (v : cell) : Z :=
  np_sum (eq_scalar col v).

(** The number of times that [v] occurs in a column. *)
Definition occurrences (col : series) (v : cell) : nat :=
  length (filter (fun x => x = v) col).

(** The number of rows of a column that hold a value. *)
Definition labelled (col : series) : nat :=
  length (filter (fun x => x <> None) col).

(** The sum of a list of counts. *)
Definition sumZ (l : list Z) : Z := foldr Z.add 0%Z l.

(** The pairs of the nested loops, last pair first. *)
Definition loop_pairs_reversed (uniqSites uniqClass : list cell)
  : list (cell * cell) :=
  reverse (loop_pairs uniqSites uniqClass).

(** An order of visiting the (site, class) pairs: any rearrangement of
    the order of the nested loops. *)
Definition enumeration (enum : list cell -> list cell -> list (cell * cell))
  : Prop :=
  forall sites classes, enum sites classes ≡ₚ loop_pairs sites classes.

End Groups.

(** * Properties *)

(** ** Series and masks *)

Section SeriesFacts.

Context {num : Type} `{!EqDecision num}.
Variable mean : list num -> option num.

#[local] Abbreviation cell := (cell num).
#[local] Abbreviation series := (series num).
#[local] Abbreviation nanmean := (nanmean mean).

Implicit Types (s : series) (m idx : mask) (v : cell) (r : nat).

Lemma lookup_mask_and (a b : mask) r :
  mask_and a b !! r = Some true <-> a !! r = Some true /\ b !! r = Some true.
Proof.
  unfold mask_and. rewrite lookup_zip_with.
  destruct (a !! r) as [[]|], (b !! r) as [[]|]; simpl; naive_solver.
Qed.

Lemma lookup_eq_scalar s v r :
  eq_scalar s v !! r = Some true <->
  exists a : num, v = Some a /\ s !! r = Some (Some a).
Proof.
  unfold eq_scalar. rewrite list_lookup_fmap.
  destruct (s !! r) as [[x|]|], v as [y|]; simpl;
    try case_bool_decide; naive_solver.
Qed.

Lemma lookup_isnull s r :
  isnull s !! r = Some true <-> s !! r = Some None.
Proof.
  unfold isnull. rewrite list_lookup_fmap.
  destruct (s !! r) as [[x|]|]; simpl; naive_solver.
Qed.

Lemma length_assign_where s m v : length (assign_where s m v) = length s.
Proof.
  revert m. induction s as [|x s IH]; intros [|b m]; simpl; auto.
Qed.

Lemma lookup_assign_where_on s m v r :
  m !! r = Some true -> r < length s -> assign_where s m v !! r = Some v.
Proof.
  revert m r. induction s as [|x s IH]; intros [|b m] [|r]; simpl;
    intros Hm Hr; try lia; try discriminate.
  - by simplify_eq.
  - apply IH; [done|lia].
Qed.

Lemma lookup_assign_where_off s m v r :
  m !! r <> Some true -> assign_where s m v !! r = s !! r.
Proof.
  revert m r. induction s as [|x s IH]; intros [|b m] [|r]; simpl;
    intros Hm; try done.
  - destruct b; congruence.
  - by apply IH.
Qed.

(** [s[m]] reads [s] at the rows of [m] only. *)
Lemma select_ext s s' m :
  (forall r, m !! r = Some true -> s !! r = s' !! r) -> select s m = select s' m.
Proof.
  revert s s'. induction m as [|b m IH]; intros s s' H.
  - by destruct s, s'.
  - destruct s as [|x s], s' as [|x' s']; simpl.
    + done.
    + destruct b; [specialize (H 0 eq_refl); discriminate|].
      rewrite <- (IH [] s'); [by destruct m|].
      intros r Hr. apply (H (S r) Hr).
    + destruct b; [specialize (H 0 eq_refl); discriminate|].
      rewrite <- (IH [] s); [by destruct m|].
      intros r Hr. symmetry. apply (H (S r) Hr).
    + destruct b.
      * pose proof (H 0 eq_refl) as H0. simpl in H0. simplify_eq. f_equal.
        apply IH. intros r Hr. apply (H (S r) Hr).
      * apply IH. intros r Hr. apply (H (S r) Hr).
Qed.

Lemma np_sum_pos m :
  (0 <? np_sum m)%Z = true <-> exists r, m !! r = Some true.
Proof.
  unfold np_sum. rewrite Z.ltb_lt. split.
  - intros H. destruct (filter (fun b => b = true) m) as [|b l] eqn:E;
      [simpl in H; lia|].
    assert (b ∈ filter (fun b => b = true) m) as Hb by (rewrite E; left).
    apply list_elem_of_filter in Hb as [-> Hb].
    apply list_elem_of_lookup in Hb as [r Hr]. eauto.
  - intros [r Hr].
    assert (true ∈ filter (fun b => b = true) m) as Hb.
    { apply list_elem_of_filter. split; [done|]. by eapply list_elem_of_lookup_2. }
    destruct (filter (fun b => b = true) m); [by apply elem_of_nil in Hb|].
    simpl. lia.
Qed.

Lemma assign_where_none s m v :
  (forall r, m !! r <> Some true) -> assign_where s m v = s.
Proof.
  intros H. apply list_eq. intros r. by apply lookup_assign_where_off.
Qed.

Lemma length_fill_series idx s : length (fill_series mean idx s) = length s.
Proof. apply length_assign_where. Qed.

Lemma lookup_fill_series_hit idx s r :
  s !! r = Some None -> idx !! r = Some true ->
  fill_series mean idx s !! r = Some (nanmean (select s idx)).
Proof.
  intros Hs Hi. apply lookup_assign_where_on.
  - apply lookup_mask_and. split; [by apply lookup_isnull|done].
  - by eapply lookup_lt_Some.
Qed.

Lemma lookup_fill_series_miss idx s r :
  s !! r <> Some None \/ idx !! r <> Some true ->
  fill_series mean idx s !! r = s !! r.
Proof.
  intros H. apply lookup_assign_where_off.
  rewrite lookup_mask_and, lookup_isnull. tauto.
Qed.

Lemma fill_series_id idx s :
  (forall r, idx !! r = Some true -> s !! r <> Some None) ->
  fill_series mean idx s = s.
Proof.
  intros H. apply list_eq. intros r. apply lookup_fill_series_miss.
  destruct (decide (idx !! r = Some true)); [left; auto|by right].
Qed.

(** Two groups that share a row are the same group. *)
Lemma group_mask_disjoint (ss cs : series) (p q : cell * cell) r :
  group_mask ss cs p !! r = Some true -> group_mask ss cs q !! r = Some true ->
  p = q.
Proof.
  unfold group_mask. rewrite !lookup_mask_and, !lookup_eq_scalar.
  intros [(a & Ha & Hsa) (b & Hb & Hcb)] [(a' & Ha' & Hsa') (b' & Hb' & Hcb')].
  destruct p, q; simpl in *. congruence.
Qed.

Lemma group_mask_row (ss cs : series) (a b : num) r :
  group_mask ss cs (Some a, Some b) !! r = Some true <->
  ss !! r = Some (Some a) /\ cs !! r = Some (Some b).
Proof.
  unfold group_mask. rewrite lookup_mask_and, !lookup_eq_scalar. simpl.
  split.
  - intros [(a' & Ha & ?) (b' & Hb & ?)]. by simplify_eq.
  - intros [? ?]. split; eauto.
Qed.

Lemma fill_groups_cons (ss cs : series) p ps s :
  fill_groups mean ss cs (p :: ps) s =
  fill_groups mean ss cs ps (fill_series mean (group_mask ss cs p) s).
Proof. done. Qed.

Lemma length_fill_groups (ss cs : series) ps s :
  length (fill_groups mean ss cs ps s) = length s.
Proof.
  revert s. induction ps as [|p ps IH]; intros s; [done|].
  by rewrite fill_groups_cons, IH, length_fill_series.
Qed.

(** A cell that holds a number, or whose row is in none of the groups,
    is left as it is. *)
Lemma lookup_fill_groups_miss (ss cs : series) ps s r :
  s !! r <> Some None \/
    (forall p, p ∈ ps -> group_mask ss cs p !! r <> Some true) ->
  fill_groups mean ss cs ps s !! r = s !! r.
Proof.
  revert s. induction ps as [|p ps IH]; intros s H; [done|].
  rewrite fill_groups_cons, IH.
  - apply lookup_fill_series_miss.
    destruct H as [H|H]; [by left|right; apply H; left].
  - destruct H as [H|H].
    + left. by rewrite lookup_fill_series_miss by (by left).
    + right. intros q Hq. apply H. by right.
Qed.

(** A missing cell of a group receives the mean that the group had in
    the column before any group was filled. *)
Lemma lookup_fill_groups_hit (ss cs : series) ps p s r :
  NoDup ps -> p ∈ ps ->
  s !! r = Some None -> group_mask ss cs p !! r = Some true ->
  fill_groups mean ss cs ps s !! r =
  Some (nanmean (select s (group_mask ss cs p))).
Proof.
  intros Hnd. revert s. induction Hnd as [|q ps Hq Hnd IH]; intros s Hp Hs Hr.
  { by apply elem_of_nil in Hp. }
  rewrite fill_groups_cons. apply elem_of_cons in Hp as [->|Hp].
  - rewrite lookup_fill_groups_miss.
    + by apply lookup_fill_series_hit.
    + right. intros p' Hp' Hr'.
      by rewrite (group_mask_disjoint _ _ _ _ _ Hr' Hr) in Hp'.
  - assert (group_mask ss cs q !! r <> Some true) as Hqr.
    { intros Hqr. by rewrite (group_mask_disjoint _ _ _ _ _ Hqr Hr) in Hq. }
    rewrite IH; [|done| |done].
    + do 2 f_equal. apply select_ext. intros r' Hr'.
      apply lookup_fill_series_miss. right. intros Hqr'.
      by rewrite (group_mask_disjoint _ _ _ _ _ Hqr' Hr') in Hq.
    + rewrite lookup_fill_series_miss by (by right). done.
Qed.

(** The order in which the groups are filled does not matter. *)
Lemma fill_groups_perm (ss cs : series) ps ps' s :
  NoDup ps -> ps ≡ₚ ps' ->
  fill_groups mean ss cs ps s = fill_groups mean ss cs ps' s.
Proof.
  intros Hnd Hperm. apply list_eq. intros r.
  assert (NoDup ps') as Hnd' by (by rewrite <- Hperm).
  destruct (s !! r) as [[x|]|] eqn:Hs.
  - rewrite !lookup_fill_groups_miss by (left; congruence). done.
  - destruct (decide (Exists (fun p => group_mask ss cs p !! r = Some true) ps))
      as [Hex|Hex].
    + apply Exists_exists in Hex as (p & Hp & Hr).
      rewrite (lookup_fill_groups_hit ss cs ps p) by done.
      rewrite (lookup_fill_groups_hit ss cs ps' p); [done..| |done|done].
      by rewrite <- Hperm.
    + rewrite !lookup_fill_groups_miss; [done| |].
      * right. intros p Hp Hr. apply Hex, Exists_exists.
        exists p. by rewrite Hperm.
      * right. intros p Hp Hr. apply Hex, Exists_exists. eauto.
  - rewrite !lookup_fill_groups_miss by (left; congruence). done.
Qed.

(** Filling the groups of a filled column changes nothing. *)
Lemma fill_groups_idemp (ss cs : series) ps s :
  NoDup ps ->
  fill_groups mean ss cs ps (fill_groups mean ss cs ps s) =
  fill_groups mean ss cs ps s.
Proof.
  intros Hnd. apply list_eq. intros r.
  set (s1 := fill_groups mean ss cs ps s).
  destruct (decide (s1 !! r = Some None)) as [Hs1|Hs1];
    [|by apply lookup_fill_groups_miss; left].
  destruct (decide (Exists (fun p => group_mask ss cs p !! r = Some true) ps))
    as [Hex|Hex].
  - apply Exists_exists in Hex as (p & Hp & Hr).
    assert (s !! r = Some None) as Hs.
    { destruct (decide (s !! r = Some None)) as [|Hn]; [done|].
      unfold s1 in Hs1. rewrite lookup_fill_groups_miss in Hs1 by (by left).
      done. }
    assert (nanmean (select s (group_mask ss cs p)) = None) as Hm.
    { unfold s1 in Hs1.
      rewrite (lookup_fill_groups_hit ss cs ps p) in Hs1 by done. congruence. }
    rewrite (lookup_fill_groups_hit ss cs ps p) by done.
    rewrite Hs1. do 2 f_equal. rewrite <- Hm. f_equal.
    apply select_ext. intros r' Hr'. unfold s1.
    destruct (decide (s !! r' = Some None)) as [Hn|Hn].
    + rewrite (lookup_fill_groups_hit ss cs ps p) by done. by rewrite Hm.
    + by apply lookup_fill_groups_miss; left.
  - apply lookup_fill_groups_miss. right. intros p Hp Hr.
    apply Hex, Exists_exists. eauto.
Qed.

(** The site and the class column hold a number wherever a group has a
    row, so that filling leaves them as they are. *)
Lemma fill_groups_site (ss cs : series) ps :
  fill_groups mean ss cs ps ss = ss.
Proof.
  apply list_eq. intros r.
  destruct (decide (ss !! r = Some None)) as [Hs|Hs];
    [|by apply lookup_fill_groups_miss; left].
  apply lookup_fill_groups_miss. right. intros p _.
  unfold group_mask. rewrite lookup_mask_and, lookup_eq_scalar.
  intros [(a & _ & Ha) _]. congruence.
Qed.

Lemma fill_groups_class (ss cs : series) ps :
  fill_groups mean ss cs ps cs = cs.
Proof.
  apply list_eq. intros r.
  destruct (decide (cs !! r = Some None)) as [Hs|Hs];
    [|by apply lookup_fill_groups_miss; left].
  apply lookup_fill_groups_miss. right. intros p _.
  unfold group_mask. rewrite lookup_mask_and, !lookup_eq_scalar.
  intros [_ (a & _ & Ha)]. congruence.
Qed.

Lemma elem_of_unique s v : v ∈ unique s <-> v ∈ s.
Proof.
  induction s as [|x s IH]; simpl; [done|].
  rewrite !elem_of_cons, list_elem_of_filter, IH.
  destruct (decide (v = x)); naive_solver.
Qed.

Lemma NoDup_unique s : NoDup (unique s).
Proof.
  induction s as [|x s IH]; simpl; [constructor|].
  constructor; [|by apply NoDup_filter].
  rewrite list_elem_of_filter. naive_solver.
Qed.

Lemma elem_of_loop_pairs (sites classes : list cell) (p : cell * cell) :
  p ∈ loop_pairs sites classes <-> p.1 ∈ sites /\ p.2 ∈ classes.
Proof.
  unfold loop_pairs. rewrite list_elem_of_bind. split.
  - intros (sv & Hp & Hsv). apply list_elem_of_fmap in Hp as (cv & -> & Hcv).
    done.
  - intros [H1 H2]. exists p.1. split; [|done].
    apply list_elem_of_fmap. exists p.2. by destruct p.
Qed.

Lemma NoDup_loop_pairs (sites classes : list cell) :
  NoDup sites -> NoDup classes -> NoDup (loop_pairs sites classes).
Proof.
  intros Hs Hc. unfold loop_pairs.
  induction Hs as [|sv sites Hsv Hs IH]; simpl; [constructor|].
  apply NoDup_app. split; [|split; [|done]].
  - apply NoDup_fmap_2; [|done]. by intros ?? [=].
  - intros p Hp Hp'. apply list_elem_of_fmap in Hp as (cv & -> & Hcv).
    apply list_elem_of_bind in Hp' as (sv' & Hp' & Hsv').
    apply list_elem_of_fmap in Hp' as (cv' & [= -> ->] & _). done.
Qed.

(** The rows that [s[m]] picks. *)
Lemma elem_of_select s m (x : cell) :
  x ∈ select s m <-> exists r, m !! r = Some true /\ s !! r = Some x.
Proof.
  revert m. induction s as [|y s IH]; intros [|b m]; simpl.
  - split; [by intros ?%elem_of_nil|]. by intros (r & ? & ?).
  - split; [by intros ?%elem_of_nil|]. by intros (r & ? & ?).
  - split; [by intros ?%elem_of_nil|]. by intros (r & ? & ?).
  - destruct b.
    + rewrite elem_of_cons, IH. split.
      * intros [->|(r & ? & ?)]; [by exists 0|by exists (S r)].
      * intros ([|r] & Hm & Hs); simpl in *; [left; congruence|right; eauto].
    + rewrite IH. split.
      * intros (r & ? & ?). by exists (S r).
      * intros ([|r] & Hm & Hs); simpl in *; [congruence|eauto].
Qed.

Lemma dropna_nil s : (forall x, x ∈ s -> x = None) -> dropna s = [].
Proof.
  unfold dropna. induction s as [|[a|] s IH]; intros H; simpl; [done| |].
  - specialize (H (Some a)). discriminate H. left.
  - apply IH. intros x Hx. apply H. by right.
Qed.

End SeriesFacts.

(** ** Frames and the heap *)

Section FrameFacts.

Context {num : Type} `{!EqDecision num}.
Variable mean : list num -> option num.
Variable slice_is_view : bool.

#[local] Abbreviation cell := (cell num).
#[local] Abbreviation series := (series num).
#[local] Abbreviation DataFrame := (DataFrame num).

Implicit Types (df data : DataFrame) (s ss cs : series) (lo hi k r : nat).

Lemma columns_set_cols_between df lo hi data :
  columns (set_cols_between df lo hi data) = columns df.
Proof.
  unfold columns, set_cols_between. apply list_eq. intros k.
  rewrite !list_lookup_fmap, list_lookup_imap.
  destruct (df !! k) as [c|]; simpl; [|done].
  case_bool_decide; [|done]. by destruct (data !! (k - lo)).
Qed.

Lemma length_set_cols_between df lo hi data :
  length (set_cols_between df lo hi data) = length df.
Proof. apply length_imap. Qed.

Lemma lookup_cols_between df lo hi k :
  cols_between df lo hi !! k = if decide (lo + k < hi) then df !! (lo + k) else None.
Proof.
  unfold cols_between. destruct (decide (lo + k < hi)).
  - rewrite lookup_take_lt by lia. by rewrite lookup_drop.
  - apply lookup_take_ge. lia.
Qed.

Lemma length_cols_between df lo hi : length (cols_between df lo hi) <= hi - lo.
Proof. unfold cols_between. rewrite length_take. lia. Qed.

Lemma lookup_set_cols_between df lo hi data k :
  set_cols_between df lo hi data !! k =
  (fun c => if bool_decide (lo <= k < hi) then
              match data !! (k - lo) with Some d => (c.1, d.2) | None => c end
            else c) <$> df !! k.
Proof. unfold set_cols_between. by rewrite list_lookup_imap. Qed.

(** Writing the columns of the range back changes nothing. *)
Lemma set_cols_between_same df lo hi :
  set_cols_between df lo hi (cols_between df lo hi) = df.
Proof.
  apply list_eq. intros k. rewrite lookup_set_cols_between.
  destruct (df !! k) as [[l s]|] eqn:Hk; simpl; [|done].
  case_bool_decide as Hr; [|done].
  rewrite lookup_cols_between. replace (lo + (k - lo)) with k by lia.
  rewrite decide_True by lia. by rewrite Hk.
Qed.

Lemma length_fill_frame ss cs ps data :
  length (fill_frame mean ss cs ps data) = length data.
Proof. unfold fill_frame. by rewrite length_fmap. Qed.

Lemma lookup_filled df0 lo hi ss cs ps k :
  filled mean df0 lo hi ss cs ps !! k =
  (fun c => if bool_decide (lo <= k < hi)
            then (c.1, fill_groups mean ss cs ps c.2) else c) <$> df0 !! k.
Proof.
  unfold filled. rewrite lookup_set_cols_between.
  destruct (df0 !! k) as [c|] eqn:Hk; simpl; [|done].
  case_bool_decide as Hr; [|done].
  unfold fill_frame. rewrite list_lookup_fmap, lookup_cols_between.
  replace (lo + (k - lo)) with k by lia.
  rewrite decide_True by lia. by rewrite Hk.
Qed.

Lemma columns_filled df0 lo hi ss cs ps :
  columns (filled mean df0 lo hi ss cs ps) = columns df0.
Proof. apply columns_set_cols_between. Qed.

(** A write into a column of a view is a write into the column of the
    frame under it. *)
Lemma alter_set_cols_between (wr : series -> series) df0 lo data col :
  col < length data ->
  alter (fun c => (c.1, wr c.2)) (lo + col)
    (set_cols_between df0 lo (lo + length data) data) =
  set_cols_between df0 lo (lo + length data)
    (alter (fun c => (c.1, wr c.2)) col data).
Proof.
  intros Hcol. apply list_eq. intros k.
  rewrite list_lookup_alter, !lookup_set_cols_between.
  destruct (lookup_lt_is_Some_2 data col Hcol) as [d Hd].
  destruct (decide (lo + col = k)) as [<-|Hne].
  - destruct (df0 !! (lo + col)) as [c|]; simpl; [|done].
    rewrite bool_decide_true by lia.
    replace (lo + col - lo) with col by lia.
    rewrite Hd, list_lookup_alter, decide_True by done. by rewrite Hd.
  - destruct (df0 !! k) as [c|]; simpl; [|done].
    case_bool_decide; [|done].
    rewrite list_lookup_alter_ne by lia. done.
Qed.

Lemma frame_of_alter (wr : series -> series) df0 lo data col :
  col < length data ->
  match (if slice_is_view then Some lo else None) with
  | Some lo' => alter (fun c => (c.1, wr c.2)) (lo' + col)
                  (frame_of slice_is_view df0 lo data)
  | None => frame_of slice_is_view df0 lo data
  end =
  frame_of slice_is_view df0 lo (alter (fun c => (c.1, wr c.2)) col data).
Proof.
  intros Hcol. unfold frame_of. destruct slice_is_view; [|done].
  rewrite length_alter. by apply alter_set_cols_between.
Qed.

Lemma columns_frame_of df0 lo data :
  columns (frame_of slice_is_view df0 lo data) = columns df0.
Proof.
  unfold frame_of. destruct slice_is_view; [|done].
  apply columns_set_cols_between.
Qed.

Lemma frame_of_same df0 lo hi :
  frame_of slice_is_view df0 lo (cols_between df0 lo hi) = df0.
Proof.
  unfold frame_of. destruct slice_is_view; [|done].
  apply list_eq. intros k. rewrite lookup_set_cols_between.
  destruct (df0 !! k) as [[l s]|] eqn:Hk; simpl; [|done].
  case_bool_decide as Hr; [|done].
  rewrite lookup_cols_between. replace (lo + (k - lo)) with k by lia.
  case_decide; by rewrite ?Hk.
Qed.

(** The frame once [data] has been stored back into it. *)
Lemma store_frame_of df0 lo hi data :
  length data <= hi - lo ->
  set_cols_between (frame_of slice_is_view df0 lo data) lo hi data =
  set_cols_between df0 lo hi data.
Proof.
  intros Hlen. unfold frame_of. destruct slice_is_view; [|done].
  apply list_eq. intros k. rewrite !lookup_set_cols_between.
  destruct (df0 !! k) as [c|]; simpl; [|done].
  destruct (data !! (k - lo)) as [d|] eqn:Hd.
  - repeat case_bool_decide; try done.
    apply lookup_lt_Some in Hd. lia.
  - apply lookup_ge_None in Hd.
    repeat case_bool_decide; try done; lia.
Qed.

(** [df[lbl]] by positions. *)
Lemma getitem_Ok df lbl s :
  getitem df lbl = Ok s <->
  exists k l, get_loc (columns df) lbl = Ok k /\ df !! k = Some (l, s).
Proof.
  unfold getitem, index. destruct (get_loc (columns df) lbl) as [k|e]; simpl.
  - destruct (df !! k) as [[l s']|] eqn:Hk; simpl.
    + split.
      * intros [= ->]. eauto.
      * intros (k' & l' & [= <-] & Hk'). rewrite Hk in Hk'. by simplify_eq.
    + split; [done|]. intros (k' & l' & [= <-] & Hk'). congruence.
  - split; [done|]. by intros (k' & l' & ? & ?).
Qed.

(** While the loops run, the caller's frame shows the class and the site
    column as they were at the call. *)
Lemma getitem_frame_of df0 lo hi ss cs ps lbl s :
  getitem df0 lbl = Ok s -> s = ss \/ s = cs ->
  getitem (frame_of slice_is_view df0 lo
             (fill_frame mean ss cs ps (cols_between df0 lo hi))) lbl = Ok s.
Proof.
  intros Hget Hs. apply getitem_Ok in Hget as (k & l & Hloc & Hk).
  apply getitem_Ok. exists k, l. rewrite columns_frame_of. split; [done|].
  unfold frame_of. destruct slice_is_view; [|done].
  rewrite lookup_set_cols_between, Hk. simpl.
  case_bool_decide as Hr; [|done].
  unfold fill_frame. rewrite list_lookup_fmap, lookup_cols_between.
  replace (lo + (k - lo)) with k by lia.
  case_decide; [|done]. rewrite Hk. simpl. f_equal. f_equal.
  destruct Hs as [->| ->]; [apply fill_groups_site|apply fill_groups_class].
Qed.

End FrameFacts.

(** ** Running the loops *)

Section RunFacts.

Context {num : Type} `{!EqDecision num}.
Variable mean : list num -> option num.
Variable slice_is_view : bool.

#[local] Abbreviation cell := (cell num).
#[local] Abbreviation series := (series num).
#[local] Abbreviation DataFrame := (DataFrame num).
#[local] Abbreviation M := (M num).
#[local] Abbreviation g1 := EnigmaTransforms.module_globals.

Implicit Types (df data : DataFrame) (s ss cs : series) (lo hi k r : nat).
Implicit Types (h : heap num) (ps : list (cell * cell)).

Lemma run_bind {A B : Type} (m : M A) (f : A -> M B) h :
  (m ≫= f) h =
  match m h with
  | (Ok a, h') => f a h'
  | (Raise e, h') => (Raise e, h')
  end.
Proof. done. Qed.

(** A loop whose body always succeeds is a fold over an abstraction [H]
    of the heap. *)
Lemma for_each_foldl {A D : Type} (H : D -> heap num) (P : D -> Prop)
    (step : D -> A -> D) (body : A -> M unit) (xs : list A) (d : D) :
  (forall x d, x ∈ xs -> P d ->
     body x (H d) = (Ok tt, H (step d x)) /\ P (step d x)) ->
  P d ->
  for_each xs body (H d) = (Ok tt, H (foldl step d xs)).
Proof.
  revert d. induction xs as [|x xs IH]; intros d Hbody Hd; [done|].
  simpl. rewrite run_bind.
  destruct (Hbody x d) as [-> Hd']; [left|done|].
  apply IH; [|done]. intros y d' Hy. apply Hbody. by right.
Qed.

Lemma lookup_foldl_alter {A : Type} (f : A -> A) (l : list A) k n j :
  foldl (fun d col => alter f col d) l (seq k n) !! j =
  if decide (k <= j < k + n) then f <$> l !! j else l !! j.
Proof.
  revert k l. induction n as [|n IH]; intros k l; simpl.
  - rewrite decide_False by lia. done.
  - rewrite IH. rewrite list_lookup_alter.
    destruct (decide (k = j)) as [->|Hne].
    + rewrite decide_False by lia. rewrite decide_True by lia. done.
    + destruct (decide (S k <= j < S k + n)).
      * rewrite decide_True by lia. done.
      * rewrite decide_False by lia. done.
Qed.

Lemma foldl_alter_all {A : Type} (f : A -> A) (l : list A) :
  foldl (fun d col => alter f col d) l (seq 0 (length l)) = f <$> l.
Proof.
  apply list_eq. intros j. rewrite lookup_foldl_alter, list_lookup_fmap.
  case_decide as Hj; [done|].
  rewrite (lookup_ge_None_2 l j) by lia. done.
Qed.

Lemma foldl_app_bind {A B : Type} (f : A -> list B) (acc : list B) (l : list A) :
  foldl (fun bs x => bs ++ f x) acc l = acc ++ (l ≫= f).
Proof.
  revert acc. induction l as [|x l IH]; intros acc; simpl.
  - by rewrite app_nil_r.
  - rewrite IH. by rewrite app_assoc.
Qed.

(** Lines 39 to 43, for a column that [data] has. *)
Lemma run_column df0 lo data idx col :
  col < length data ->
  classfill_column mean g1 idx col (heap_of slice_is_view df0 lo data) =
  (Ok tt, heap_of slice_is_view df0 lo
            (alter (fun c => (c.1, fill_series mean idx c.2)) col data)).
Proof.
  intros Hcol. destruct (lookup_lt_is_Some_2 data col Hcol) as [c Hc].
  unfold classfill_column. rewrite run_bind.
  unfold data_iloc at 1, index. simpl. rewrite Hc. simpl.
  rewrite run_bind. simpl.
  destruct (0 <? np_sum (mask_and (isnull c.2) idx))%Z eqn:Hsum.
  - rewrite run_bind. simpl. rewrite run_bind.
    unfold data_iloc, index. simpl. rewrite Hc. simpl.
    unfold data_iloc_assign, heap_of. simpl. f_equal.
    set (wr := fun s : series =>
                 assign_where s (mask_and (isnull c.2) idx)
                   (nanmean mean (select c.2 idx))).
    assert (alter (fun c0 : string * series => (c0.1, wr c0.2)) col data =
            alter (fun c0 => (c0.1, fill_series mean idx c0.2)) col data) as <-.
    { apply list_alter_ext; [|done]. intros x Hx. by simplify_eq. }
    f_equal. apply (frame_of_alter slice_is_view wr). done.
  - unfold mret, M_ret. f_equal. f_equal.
    symmetry. transitivity (alter id col data); [|by apply list_alter_id].
    apply list_alter_ext; [|done]. intros x Hx. simplify_eq.
    destruct c as [l s]. simpl in *. f_equal. unfold fill_series.
    apply assign_where_none. intros r Hr.
    assert ((0 <? np_sum (mask_and (isnull s) idx))%Z = true) as Hpos
      by (apply np_sum_pos; eauto).
    simpl in Hsum. congruence.
Qed.

(** Lines 38 to 43: every column of [data] is filled for the rows [idx]. *)
Lemma run_columns df0 lo data idx :
  for_each (seq 0 (length (columns data))) (classfill_column mean g1 idx)
    (heap_of slice_is_view df0 lo data) =
  (Ok tt, heap_of slice_is_view df0 lo
            ((fun c => (c.1, fill_series mean idx c.2)) <$> data)).
Proof.
  unfold columns. rewrite length_fmap.
  rewrite (for_each_foldl (heap_of slice_is_view df0 lo)
             (fun d => length d = length data)
             (fun d col => alter (fun c => (c.1, fill_series mean idx c.2)) col d));
    [by rewrite foldl_alter_all| |done].
  intros col d Hcol Hd. split; [|by rewrite length_alter].
  apply run_column. apply elem_of_seq in Hcol. lia.
Qed.

Lemma foldl_snoc_fmap {A B : Type} (f : A -> B) (acc : list B) (l : list A) :
  foldl (fun bs x => bs ++ [f x]) acc l = acc ++ (f <$> l).
Proof.
  revert acc. induction l as [|x l IH]; intros acc; simpl.
  - by rewrite app_nil_r.
  - rewrite IH. by rewrite <- app_assoc.
Qed.

Lemma fill_frame_snoc ss cs ps p data :
  (fun c => (c.1, fill_series mean (group_mask ss cs p) c.2)) <$>
    fill_frame mean ss cs ps data =
  fill_frame mean ss cs (ps ++ [p]) data.
Proof.
  unfold fill_frame. rewrite <- list_fmap_compose. apply list_fmap_ext.
  intros _ c _. simpl. unfold fill_groups. by rewrite foldl_app.
Qed.

(** Lines 36 to 43: one more group is filled. *)
Lemma run_class df0 lo hi classCol ss cs ps sv cls :
  getitem df0 classCol = Ok cs ->
  classfill_class mean g1 classCol (eq_scalar ss sv) cls
    (heap_of slice_is_view df0 lo (fill_frame mean ss cs ps (cols_between df0 lo hi))) =
  (Ok tt, heap_of slice_is_view df0 lo
            (fill_frame mean ss cs (ps ++ [(sv, cls)]) (cols_between df0 lo hi))).
Proof.
  intros Hcs. unfold classfill_class. rewrite run_bind. simpl.
  rewrite run_bind. unfold lift.
  rewrite (getitem_frame_of mean slice_is_view df0 lo hi ss cs ps classCol cs)
    by auto.
  rewrite run_bind. simpl.
  rewrite run_columns.
  change (mask_and (eq_scalar ss sv) (eq_scalar cs cls))
    with (group_mask ss cs (sv, cls)).
  by rewrite fill_frame_snoc.
Qed.

(** Lines 34 to 43: the groups of one site are filled in turn. *)
Lemma run_site df0 lo hi classCol siteCol ss cs ps uniqClass sv :
  getitem df0 classCol = Ok cs -> getitem df0 siteCol = Ok ss ->
  classfill_site mean g1 classCol siteCol uniqClass sv
    (heap_of slice_is_view df0 lo (fill_frame mean ss cs ps (cols_between df0 lo hi))) =
  (Ok tt, heap_of slice_is_view df0 lo
            (fill_frame mean ss cs (ps ++ (pair sv <$> uniqClass))
               (cols_between df0 lo hi))).
Proof.
  intros Hcs Hss. unfold classfill_site. rewrite run_bind. simpl.
  rewrite run_bind. unfold lift.
  rewrite (getitem_frame_of mean slice_is_view df0 lo hi ss cs ps siteCol ss)
    by auto.
  rewrite (for_each_foldl
             (fun ps => heap_of slice_is_view df0 lo
                          (fill_frame mean ss cs ps (cols_between df0 lo hi)))
             (fun _ => True) (fun ps cls => ps ++ [(sv, cls)])); [|.. |done].
  - by rewrite foldl_snoc_fmap.
  - intros cls ps' _ _. split; [|done]. by apply run_class.
Qed.

(** Lines 33 to 43: all groups are filled, site by site. *)
Lemma run_sites df0 lo hi classCol siteCol ss cs ps uniqSites uniqClass :
  getitem df0 classCol = Ok cs -> getitem df0 siteCol = Ok ss ->
  for_each uniqSites (classfill_site mean g1 classCol siteCol uniqClass)
    (heap_of slice_is_view df0 lo (fill_frame mean ss cs ps (cols_between df0 lo hi))) =
  (Ok tt, heap_of slice_is_view df0 lo
            (fill_frame mean ss cs (ps ++ loop_pairs uniqSites uniqClass)
               (cols_between df0 lo hi))).
Proof.
  intros Hcs Hss.
  rewrite (for_each_foldl
             (fun ps => heap_of slice_is_view df0 lo
                          (fill_frame mean ss cs ps (cols_between df0 lo hi)))
             (fun _ => True) (fun ps sv => ps ++ (pair sv <$> uniqClass)));
    [|.. |done].
  - by rewrite foldl_app_bind.
  - intros sv ps' _ _. split; [|done]. by apply run_site.
Qed.

Lemma run_pair df0 lo hi classCol siteCol ss cs ps p :
  getitem df0 classCol = Ok cs -> getitem df0 siteCol = Ok ss ->
  classfill_pair mean g1 classCol siteCol p
    (heap_of slice_is_view df0 lo (fill_frame mean ss cs ps (cols_between df0 lo hi))) =
  (Ok tt, heap_of slice_is_view df0 lo
            (fill_frame mean ss cs (ps ++ [p]) (cols_between df0 lo hi))).
Proof.
  intros Hcs Hss. unfold classfill_pair. rewrite run_bind. simpl.
  rewrite run_bind. unfold lift.
  rewrite (getitem_frame_of mean slice_is_view df0 lo hi ss cs ps siteCol ss)
    by auto.
  destruct p as [sv cls]. by apply run_class.
Qed.

Lemma run_pairs df0 lo hi classCol siteCol ss cs ps qs :
  getitem df0 classCol = Ok cs -> getitem df0 siteCol = Ok ss ->
  for_each qs (classfill_pair mean g1 classCol siteCol)
    (heap_of slice_is_view df0 lo (fill_frame mean ss cs ps (cols_between df0 lo hi))) =
  (Ok tt, heap_of slice_is_view df0 lo
            (fill_frame mean ss cs (ps ++ qs) (cols_between df0 lo hi))).
Proof.
  intros Hcs Hss.
  rewrite (for_each_foldl
             (fun ps => heap_of slice_is_view df0 lo
                          (fill_frame mean ss cs ps (cols_between df0 lo hi)))
             (fun _ => True) (fun ps p => ps ++ [id p])); [|.. |done].
  - by rewrite foldl_snoc_fmap, list_fmap_id.
  - intros p ps' _ _. split; [|done]. by apply run_pair.
Qed.

Lemma fill_frame_nil ss cs data : fill_frame mean ss cs [] data = data.
Proof.
  unfold fill_frame. rewrite <- (list_fmap_id data) at 2.
  apply list_fmap_ext. by intros _ [l s] _.
Qed.

(** A call of [classfill] that finds its columns returns the frame with
    every group of the range filled, and leaves the caller's frame (the
    same object) in that state. *)
Lemma classfill_ok df0 classCol siteCol idxRange ss cs lo hi :
  getitem df0 classCol = Ok cs -> getitem df0 siteCol = Ok ss ->
  slice_locs (columns df0) idxRange = Ok (lo, hi) ->
  EnigmaTransforms.classfill mean slice_is_view df0 classCol siteCol idxRange =
  let df' := filled mean df0 lo hi ss cs (loop_pairs (unique ss) (unique cs)) in
  (Ok df', df').
Proof.
  intros Hcs Hss Hloc.
  unfold EnigmaTransforms.classfill, classfill_text, classfill_body.
  rewrite run_bind. simpl. rewrite run_bind. unfold lift. rewrite Hcs. simpl.
  rewrite run_bind. rewrite Hss. simpl.
  rewrite run_bind. unfold bind_data. simpl. rewrite Hloc.
  change (Heap df0 (cols_between df0 lo hi)
            (if slice_is_view then Some lo else None))
    with (Heap (h_dFrame (Heap df0 [] None)) (cols_between df0 lo hi)
            (if slice_is_view then Some lo else None)).
  simpl.
  assert (Heap df0 (cols_between df0 lo hi)
            (if slice_is_view then Some lo else None) =
          heap_of slice_is_view df0 lo
            (fill_frame mean ss cs [] (cols_between df0 lo hi)))
    as ->.
  { unfold heap_of. rewrite fill_frame_nil.
    by rewrite frame_of_same. }
  rewrite run_bind.
  rewrite (run_sites df0 lo hi classCol siteCol ss cs []
             (unique ss) (unique cs) Hcs Hss).
  simpl. rewrite run_bind. unfold store_data. simpl.
  rewrite columns_frame_of, Hloc. simpl.
  rewrite store_frame_of; [done|].
  rewrite length_fill_frame. apply length_cols_between.
Qed.

Lemma classfill_in_order_ok enum df0 classCol siteCol idxRange ss cs lo hi :
  located df0 classCol siteCol idxRange ss cs lo hi ->
  classfill_in_order mean slice_is_view g1 enum df0 classCol siteCol idxRange =
  let df' := filled mean df0 lo hi ss cs (enum (unique ss) (unique cs)) in
  (Ok df', df').
Proof.
  intros (Hcs & Hss & Hloc). unfold classfill_in_order.
  rewrite run_bind. simpl. rewrite run_bind. unfold lift. rewrite Hcs. simpl.
  rewrite run_bind. rewrite Hss. simpl.
  rewrite run_bind. unfold bind_data. simpl. rewrite Hloc. simpl.
  assert (Heap df0 (cols_between df0 lo hi)
            (if slice_is_view then Some lo else None) =
          heap_of slice_is_view df0 lo
            (fill_frame mean ss cs [] (cols_between df0 lo hi)))
    as ->.
  { unfold heap_of. rewrite fill_frame_nil.
    by rewrite frame_of_same. }
  rewrite run_bind.
  rewrite (run_pairs df0 lo hi classCol siteCol ss cs [] _ Hcs Hss).
  simpl. rewrite run_bind. unfold store_data. simpl.
  rewrite columns_frame_of, Hloc. simpl.
  rewrite store_frame_of; [done|].
  rewrite length_fill_frame. apply length_cols_between.
Qed.

(** A call that does not find a column raises before the loops, whatever
    the module and the order of the groups. *)
Lemma classfill_raise g enum df0 classCol siteCol idxRange e :
  getitem df0 classCol = Raise e \/
  (exists cs, getitem df0 classCol = Ok cs /\ getitem df0 siteCol = Raise e) \/
  (exists cs ss, getitem df0 classCol = Ok cs /\ getitem df0 siteCol = Ok ss /\
     slice_locs (columns df0) idxRange = Raise e) ->
  classfill_text mean slice_is_view g df0 classCol siteCol idxRange =
    (Raise e, df0) /\
  classfill_in_order mean slice_is_view g enum df0 classCol siteCol idxRange =
    (Raise e, df0).
Proof.
  unfold classfill_text, classfill_body, classfill_in_order.
  intros [H|[(cs & Hcs & H)|(cs & ss & Hcs & Hss & H)]].
  - rewrite !run_bind. simpl. rewrite !run_bind. unfold lift. by rewrite H.
  - rewrite !run_bind. simpl. rewrite !run_bind. unfold lift. rewrite Hcs.
    simpl. rewrite !run_bind. by rewrite H.
  - rewrite !run_bind. simpl. rewrite !run_bind. unfold lift. rewrite Hcs.
    simpl. rewrite !run_bind. rewrite Hss. simpl.
    rewrite !run_bind. unfold bind_data. simpl. by rewrite H.
Qed.

End RunFacts.

(** ** Lookups that fail *)

Section LookupFacts.

Context {num : Type}.

#[local] Abbreviation DataFrame := (DataFrame num).

Implicit Types (df : DataFrame) (idx : list string) (lbl : string).

Lemma get_loc_Ok idx lbl k :
  get_loc idx lbl = Ok k -> idx !! k = Some lbl.
Proof.
  revert k. induction idx as [|l idx IH]; intros k; simpl; [done|].
  destruct (String.eqb_spec l lbl) as [->|Hne].
  - by intros [= <-].
  - destruct (get_loc idx lbl) as [k'|e]; simpl; [|done].
    intros [= <-]. by apply IH.
Qed.

Lemma get_loc_Raise idx lbl e :
  get_loc idx lbl = Raise e -> e = KeyError /\ lbl ∉ idx.
Proof.
  induction idx as [|l idx IH]; simpl.
  - intros [= <-]. split; [done|]. apply not_elem_of_nil.
  - destruct (String.eqb_spec l lbl) as [->|Hne]; [done|].
    destruct (get_loc idx lbl) as [k'|e'] eqn:E; simpl; [done|].
    intros [= <-]. destruct IH as [-> Hn]; [done|]. split; [done|].
    rewrite elem_of_cons. naive_solver.
Qed.

Lemma get_loc_absent idx lbl : lbl ∉ idx -> get_loc idx lbl = Raise KeyError.
Proof.
  intros Hn. destruct (get_loc idx lbl) as [k|e] eqn:E.
  - apply get_loc_Ok in E. by apply list_elem_of_lookup_2 in E.
  - by apply get_loc_Raise in E as [-> _].
Qed.

(** [df[lbl]] returns the column or raises [KeyError]. *)
Lemma getitem_cases df lbl :
  (exists s, getitem df lbl = Ok s) \/
  ((lbl ∉ columns df) /\ getitem df lbl = Raise KeyError).
Proof.
  unfold getitem. destruct (get_loc (columns df) lbl) as [k|e] eqn:E; simpl.
  - left. apply get_loc_Ok in E. unfold columns in E.
    rewrite list_lookup_fmap in E. unfold index.
    destruct (df !! k) as [c|]; [|done]. simpl. eauto.
  - right. by apply get_loc_Raise in E as [-> ?].
Qed.

Lemma get_slice_bound_cases idx lbl sd :
  (exists k, get_slice_bound idx lbl sd = Ok k) \/
  get_slice_bound idx lbl sd = Raise KeyError.
Proof.
  unfold get_slice_bound. destruct (get_loc idx lbl) as [k|e] eqn:E; [eauto|].
  apply get_loc_Raise in E as [-> _].
  destruct (searchsorted_monotonic idx lbl sd); eauto.
Qed.

(** The bound of an absent label in an index that is not sorted. *)
Lemma get_slice_bound_absent idx lbl sd :
  lbl ∉ idx ->
  is_monotonic_increasing idx = false -> is_monotonic_decreasing idx = false ->
  get_slice_bound idx lbl sd = Raise KeyError.
Proof.
  intros Hn Hi Hd. unfold get_slice_bound, searchsorted_monotonic.
  by rewrite (get_loc_absent idx lbl Hn), Hi, Hd.
Qed.

Lemma slice_locs_cases idx rng :
  (exists lo hi, slice_locs idx rng = Ok (lo, hi)) \/
  slice_locs idx rng = Raise KeyError.
Proof.
  unfold slice_locs.
  destruct (get_slice_bound_cases idx rng.1 Left) as [[lo ->]| ->]; simpl;
    [|by right].
  destruct (get_slice_bound_cases idx rng.2 Right) as [[hi ->]| ->]; simpl;
    eauto.
Qed.

Lemma slice_locs_absent idx rng :
  rng.1 ∉ idx \/ rng.2 ∉ idx ->
  is_monotonic_increasing idx = false -> is_monotonic_decreasing idx = false ->
  slice_locs idx rng = Raise KeyError.
Proof.
  intros Hn Hi Hd. unfold slice_locs.
  destruct (get_slice_bound_cases idx rng.1 Left) as [[lo Hlo]|Hlo];
    rewrite Hlo; simpl; [|done].
  destruct Hn as [Hn|Hn].
  - by rewrite get_slice_bound_absent in Hlo.
  - by rewrite get_slice_bound_absent.
Qed.

End LookupFacts.

(** ** [classfill] *)

Section Classfill.

Context {num : Type} `{!EqDecision num}.
Variable mean : list num -> option num.
Variable slice_is_view : bool.

#[local] Abbreviation cell := (cell num).
#[local] Abbreviation series := (series num).
#[local] Abbreviation DataFrame := (DataFrame num).
#[local] Abbreviation g1 := EnigmaTransforms.module_globals.
#[local] Abbreviation classfill := (EnigmaTransforms.classfill mean slice_is_view).

Implicit Types (df : DataFrame) (s ss cs : series) (lo hi k r : nat).
Implicit Types (ps : list (cell * cell)) (a b : num).

Lemma classfill_located df classCol siteCol idxRange ss cs lo hi :
  located df classCol siteCol idxRange ss cs lo hi ->
  classfill df classCol siteCol idxRange =
  let df' := filled mean df lo hi ss cs (loop_pairs (unique ss) (unique cs)) in
  (Ok df', df').
Proof. intros (Hcs & Hss & Hloc). by apply classfill_ok. Qed.

(** Either the columns are found, or the call raises and the frame is
    as it was. *)
Lemma located_or_raise g enum df classCol siteCol idxRange :
  (exists ss cs lo hi, located df classCol siteCol idxRange ss cs lo hi) \/
  (classfill_text mean slice_is_view g df classCol siteCol idxRange =
     (Raise KeyError, df) /\
   classfill_in_order mean slice_is_view g enum df classCol siteCol idxRange =
     (Raise KeyError, df)).
Proof.
  destruct (getitem_cases df classCol) as [[cs Hcs]|[_ Hcs]];
    [|right; apply classfill_raise; auto].
  destruct (getitem_cases df siteCol) as [[ss Hss]|[_ Hss]];
    [|right; apply classfill_raise; eauto].
  destruct (slice_locs_cases (columns df) idxRange) as [(lo & hi & Hloc)|Hloc];
    [|right; apply classfill_raise; eauto 10].
  left. by exists ss, cs, lo, hi.
Qed.

Lemma loop_pairs_unique_NoDup ss cs :
  NoDup (loop_pairs (unique ss) (unique cs)).
Proof. apply NoDup_loop_pairs; apply NoDup_unique. Qed.

Lemma in_group_loop_pairs ss cs a b r :
  in_group ss cs a b r ->
  (Some a, Some b) ∈ loop_pairs (unique ss) (unique cs) /\
  group_mask ss cs (Some a, Some b) !! r = Some true.
Proof.
  intros [Hs Hc]. split; [|by apply group_mask_row].
  apply elem_of_loop_pairs. simpl. rewrite !elem_of_unique.
  split; by eapply list_elem_of_lookup_2.
Qed.

(** The filled frame shows the same class column, site column and
    feature range as the frame it comes from. *)
Lemma located_filled df classCol siteCol idxRange ss cs lo hi ps :
  located df classCol siteCol idxRange ss cs lo hi ->
  located (filled mean df lo hi ss cs ps) classCol siteCol idxRange ss cs lo hi.
Proof.
  intros (Hcs & Hss & Hloc). unfold located. rewrite columns_filled.
  split; [|split; [|done]].
  - apply getitem_Ok in Hcs as (k & l & Hk & Hdf). apply getitem_Ok.
    exists k, l. rewrite columns_filled. split; [done|].
    rewrite lookup_filled, Hdf. simpl. case_bool_decide; [|done].
    by rewrite fill_groups_class.
  - apply getitem_Ok in Hss as (k & l & Hk & Hdf). apply getitem_Ok.
    exists k, l. rewrite columns_filled. split; [done|].
    rewrite lookup_filled, Hdf. simpl. case_bool_decide; [|done].
    by rewrite fill_groups_site.
Qed.

Lemma filled_perm df lo hi ss cs ps ps' :
  NoDup ps -> ps ≡ₚ ps' ->
  filled mean df lo hi ss cs ps = filled mean df lo hi ss cs ps'.
Proof.
  intros Hnd Hperm. apply list_eq. intros k. rewrite !lookup_filled.
  destruct (df !! k) as [c|]; simpl; [|done]. case_bool_decide; [|done].
  by rewrite (fill_groups_perm mean ss cs ps ps').
Qed.

Lemma filled_idemp df lo hi ss cs ps :
  NoDup ps ->
  filled mean (filled mean df lo hi ss cs ps) lo hi ss cs ps =
  filled mean df lo hi ss cs ps.
Proof.
  intros Hnd. apply list_eq. intros k. rewrite !lookup_filled.
  destruct (df !! k) as [c|]; simpl; [|done]. case_bool_decide; [|done].
  simpl. by rewrite fill_groups_idemp.
Qed.

(** C1: in a frame whose columns are found, a missing cell of a column
    of the feature range whose row is in the group of site [a] and class
    [b], a group with at least one number in that column, holds after
    [classfill] the mean of the numbers that the group had in the column. *)
Theorem classfill_fills_group_mean df classCol siteCol idxRange ss cs lo hi
    k lbl s a b r :
  located df classCol siteCol idxRange ss cs lo hi ->
  lo <= k < hi -> df !! k = Some (lbl, s) ->
  in_group ss cs a b r -> s !! r = Some NaN ->
  group_values ss cs a b s <> [] ->
  exists df' s',
    classfill df classCol siteCol idxRange = (Ok df', df') /\
    df' !! k = Some (lbl, s') /\
    s' !! r = Some (mean (group_values ss cs a b s)).
Proof.
  intros Hloc Hk Hdf Hg Hs Hne.
  rewrite (classfill_located _ _ _ _ _ _ _ _ Hloc). simpl.
  eexists _, _. split; [done|].
  rewrite lookup_filled, Hdf. simpl. rewrite bool_decide_true by done.
  split; [done|].
  destruct (in_group_loop_pairs ss cs a b r Hg) as [Hp Hr].
  rewrite (lookup_fill_groups_hit mean ss cs _ (Some a, Some b));
    [|apply loop_pairs_unique_NoDup|done..].
  f_equal. unfold nanmean. fold (group_values ss cs a b s).
  by destruct (group_values ss cs a b s).
Qed.

(** C2: when a column of the feature range is missing in every row of
    the group of site [a] and class [b], every cell of that column in
    the group is NaN after [classfill]: the mean of the group, which is
    NaN, is what the cells hold. *)
Theorem classfill_all_missing_group df classCol siteCol idxRange ss cs lo hi
    k lbl s a b :
  located df classCol siteCol idxRange ss cs lo hi ->
  lo <= k < hi -> df !! k = Some (lbl, s) ->
  (forall r, in_group ss cs a b r -> s !! r = Some NaN) ->
  exists df' s',
    classfill df classCol siteCol idxRange = (Ok df', df') /\
    df' !! k = Some (lbl, s') /\
    nanmean mean (select s (group_mask ss cs (Some a, Some b))) = NaN /\
    forall r, in_group ss cs a b r -> s' !! r = Some NaN.
Proof.
  intros Hloc Hk Hdf Hall.
  rewrite (classfill_located _ _ _ _ _ _ _ _ Hloc). simpl.
  eexists _, _. split; [done|].
  rewrite lookup_filled, Hdf. simpl. rewrite bool_decide_true by done.
  split; [done|].
  assert (nanmean mean (select s (group_mask ss cs (Some a, Some b))) = NaN)
    as Hnan.
  { unfold nanmean. rewrite dropna_nil; [done|].
    intros x (r & Hr & Hx)%elem_of_select.
    apply group_mask_row in Hr. rewrite (Hall r Hr) in Hx. congruence. }
  split; [done|]. intros r Hg.
  destruct (in_group_loop_pairs ss cs a b r Hg) as [Hp Hr].
  rewrite (lookup_fill_groups_hit mean ss cs _ (Some a, Some b));
    [|apply loop_pairs_unique_NoDup|by auto..].
  by rewrite Hnan.
Qed.

(** C4: in a frame whose columns are found, [classfill] keeps the labels
    and the length of every column, keeps every column outside the
    feature range, the class column and the site column as they were,
    and keeps every cell of the feature range that held a number. *)
Theorem classfill_frame df classCol siteCol idxRange ss cs lo hi :
  located df classCol siteCol idxRange ss cs lo hi ->
  exists df',
    classfill df classCol siteCol idxRange = (Ok df', df') /\
    columns df' = columns df /\
    (forall k c, ~ lo <= k < hi -> df !! k = Some c -> df' !! k = Some c) /\
    getitem df' classCol = Ok cs /\ getitem df' siteCol = Ok ss /\
    (forall k lbl s, lo <= k < hi -> df !! k = Some (lbl, s) ->
       exists s', df' !! k = Some (lbl, s') /\ length s' = length s /\
         forall r x, s !! r = Some (Some x) -> s' !! r = Some (Some x)).
Proof.
  intros Hloc. rewrite (classfill_located _ _ _ _ _ _ _ _ Hloc). simpl.
  eexists. split; [done|]. split; [apply columns_filled|].
  destruct (located_filled df classCol siteCol idxRange ss cs lo hi
              (loop_pairs (unique ss) (unique cs)) Hloc) as (Hcs & Hss & _).
  split; [|split; [done|split; [done|]]].
  - intros k c Hk Hdf. rewrite lookup_filled, Hdf. simpl.
    by rewrite bool_decide_false.
  - intros k lbl s Hk Hdf. eexists. rewrite lookup_filled, Hdf. simpl.
    rewrite bool_decide_true by done. split; [done|].
    split; [apply length_fill_groups|].
    intros r x Hx. rewrite lookup_fill_groups_miss; [done|].
    left. congruence.
Qed.

(** C5, as the code has it: a frame without rows whose columns are found
    is returned as it is; no exception is raised for it. *)
Theorem classfill_zero_rows df classCol siteCol idxRange ss cs lo hi :
  rectangular df -> nrows df = 0 ->
  located df classCol siteCol idxRange ss cs lo hi ->
  classfill df classCol siteCol idxRange = (Ok df, df).
Proof.
  intros Hrect Hrows Hloc.
  rewrite (classfill_located _ _ _ _ _ _ _ _ Hloc). simpl.
  assert (filled mean df lo hi ss cs (loop_pairs (unique ss) (unique cs)) = df)
    as ->; [|done].
  apply list_eq. intros k. rewrite lookup_filled.
  destruct (df !! k) as [[l s]|] eqn:Hdf; simpl; [|done].
  case_bool_decide; [|done]. do 2 f_equal.
  unfold rectangular in Hrect. rewrite Forall_lookup in Hrect.
  specialize (Hrect k _ Hdf). simpl in Hrect. rewrite Hrows in Hrect.
  apply nil_length_inv in Hrect as ->.
  apply nil_length_inv. by rewrite length_fill_groups.
Qed.

(** C6, as the code has it: when the class column or the site column is
    absent, or a boundary of the feature range is absent and the column
    labels are not sorted, [classfill] raises [KeyError] and the frame
    is as it was. *)
Theorem classfill_missing_column df classCol siteCol idxRange :
  (classCol ∉ columns df) \/ (siteCol ∉ columns df) \/
  (((idxRange.1 ∉ columns df) \/ (idxRange.2 ∉ columns df)) /\
   is_monotonic_increasing (columns df) = false /\
   is_monotonic_decreasing (columns df) = false) ->
  classfill df classCol siteCol idxRange = (Raise KeyError, df).
Proof.
  intros H.
  destruct (located_or_raise g1 loop_pairs df classCol siteCol idxRange)
    as [(ss & cs & lo & hi & Hcs & Hss & Hloc)|[Hr _]]; [|done].
  exfalso. destruct H as [H|[H|(H & Hi & Hd)]].
  - apply getitem_Ok in Hcs as (k & l & Hk & _).
    by rewrite (get_loc_absent _ _ H) in Hk.
  - apply getitem_Ok in Hss as (k & l & Hk & _).
    by rewrite (get_loc_absent _ _ H) in Hk.
  - by rewrite (slice_locs_absent _ _ H Hi Hd) in Hloc.
Qed.

(** C7: a second call of [classfill] on the frame that a successful call
    has left returns that frame again. *)
Theorem classfill_idempotent df classCol siteCol idxRange df' st :
  classfill df classCol siteCol idxRange = (Ok df', st) ->
  classfill df' classCol siteCol idxRange = (Ok df', df').
Proof.
  intros Hrun.
  destruct (located_or_raise g1 loop_pairs df classCol siteCol idxRange)
    as [(ss & cs & lo & hi & Hloc)|[Hr _]].
  - rewrite (classfill_located _ _ _ _ _ _ _ _ Hloc) in Hrun.
    simpl in Hrun. injection Hrun as <- _.
    rewrite (classfill_located _ _ _ _ ss cs lo hi) by (by apply located_filled).
    simpl. rewrite filled_idemp by apply loop_pairs_unique_NoDup. done.
  - unfold EnigmaTransforms.classfill in Hrun. rewrite Hr in Hrun. done.
Qed.

(** C8: whatever the order in which the (site, class) pairs are visited,
    the call has the same outcome, that of the nested loops. *)
Theorem classfill_order_independent enum1 enum2 df classCol siteCol idxRange :
  enumeration enum1 -> enumeration enum2 ->
  classfill_in_order mean slice_is_view g1 enum1 df classCol siteCol idxRange =
  classfill_in_order mean slice_is_view g1 enum2 df classCol siteCol idxRange /\
  classfill_in_order mean slice_is_view g1 enum1 df classCol siteCol idxRange =
  classfill df classCol siteCol idxRange.
Proof.
  intros H1 H2.
  destruct (located_or_raise g1 enum1 df classCol siteCol idxRange)
    as [(ss & cs & lo & hi & Hloc)|[Hr Hr1]].
  - rewrite !(classfill_in_order_ok _ _ _ _ _ _ _ ss cs lo hi Hloc).
    rewrite (classfill_located _ _ _ _ _ _ _ _ Hloc). simpl.
    assert (forall enum, enumeration enum ->
              filled mean df lo hi ss cs (enum (unique ss) (unique cs)) =
              filled mean df lo hi ss cs (loop_pairs (unique ss) (unique cs)))
      as Hen.
    { intros enum Hen. symmetry. apply filled_perm;
        [apply loop_pairs_unique_NoDup|by rewrite Hen]. }
    by rewrite (Hen enum1 H1), (Hen enum2 H2).
  - destruct (located_or_raise g1 enum2 df classCol siteCol idxRange)
      as [(ss & cs & lo & hi & Hloc)|[_ Hr2]].
    + pose proof (classfill_located _ _ _ _ _ _ _ _ Hloc) as Hok.
      unfold EnigmaTransforms.classfill in Hok. rewrite Hr in Hok. done.
    + by rewrite Hr1, Hr2.
Qed.

End Classfill.

(** ** [minorityclass] *)

Section Minorityclass.

Context {num : Type} `{!EqDecision num}.

#[local] Abbreviation cell := (cell num).
#[local] Abbreviation series := (series num).
#[local] Abbreviation DataFrame := (DataFrame num).
#[local] Abbreviation g1 := EnigmaTransforms.module_globals.
#[local] Abbreviation minorityclass := (EnigmaTransforms.minorityclass (num := num)).

Implicit Types (df : DataFrame) (col : series) (v w : cell) (l : list Z).

(** The first position of the least element. *)
Lemma argmin_from_spec l : forall (pre : list Z) bi b,
  pre !! bi = Some b ->
  (forall j x, pre !! j = Some x -> (b <= x)%Z) ->
  (forall j x, j < bi -> pre !! j = Some x -> (b < x)%Z) ->
  exists m,
    (pre ++ l) !! argmin_from bi b (length pre) l = Some m /\
    (forall j x, (pre ++ l) !! j = Some x -> (m <= x)%Z) /\
    (forall j x, j < argmin_from bi b (length pre) l ->
       (pre ++ l) !! j = Some x -> (m < x)%Z).
Proof.
  induction l as [|y l IH]; intros pre bi b Hbi Hle Hlt; simpl.
  - rewrite app_nil_r. eauto.
  - assert (bi < length pre) as Hlen by (by eapply lookup_lt_Some).
    replace (pre ++ y :: l) with ((pre ++ [y]) ++ l) by (by rewrite <- app_assoc).
    replace (S (length pre)) with (length (pre ++ [y]))
      by (rewrite length_app; simpl; lia).
    destruct (y <? b)%Z eqn:Hy.
    + apply Z.ltb_lt in Hy. apply IH.
      * by rewrite lookup_app_r, Nat.sub_diag.
      * intros j x Hx. apply lookup_app_Some in Hx as [Hx|[_ Hx]].
        -- specialize (Hle j x Hx). lia.
        -- apply list_lookup_singleton_Some in Hx as [_ <-]. lia.
      * intros j x Hj Hx. rewrite lookup_app_l in Hx by done.
        specialize (Hle j x Hx). lia.
    + apply Z.ltb_ge in Hy. apply IH.
      * by rewrite lookup_app_l.
      * intros j x Hx. apply lookup_app_Some in Hx as [Hx|[_ Hx]].
        -- by apply (Hle j).
        -- by apply list_lookup_singleton_Some in Hx as [_ <-].
      * intros j x Hj Hx. rewrite lookup_app_l in Hx by lia.
        by apply (Hlt j).
Qed.

(** The first position of the greatest element. *)
Lemma argmax_from_spec l : forall (pre : list Z) bi b,
  pre !! bi = Some b ->
  (forall j x, pre !! j = Some x -> (x <= b)%Z) ->
  (forall j x, j < bi -> pre !! j = Some x -> (x < b)%Z) ->
  exists m,
    (pre ++ l) !! argmax_from bi b (length pre) l = Some m /\
    (forall j x, (pre ++ l) !! j = Some x -> (x <= m)%Z) /\
    (forall j x, j < argmax_from bi b (length pre) l ->
       (pre ++ l) !! j = Some x -> (x < m)%Z).
Proof.
  induction l as [|y l IH]; intros pre bi b Hbi Hle Hlt; simpl.
  - rewrite app_nil_r. eauto.
  - assert (bi < length pre) as Hlen by (by eapply lookup_lt_Some).
    replace (pre ++ y :: l) with ((pre ++ [y]) ++ l) by (by rewrite <- app_assoc).
    replace (S (length pre)) with (length (pre ++ [y]))
      by (rewrite length_app; simpl; lia).
    destruct (b <? y)%Z eqn:Hy.
    + apply Z.ltb_lt in Hy. apply IH.
      * by rewrite lookup_app_r, Nat.sub_diag.
      * intros j x Hx. apply lookup_app_Some in Hx as [Hx|[_ Hx]].
        -- specialize (Hle j x Hx). lia.
        -- apply list_lookup_singleton_Some in Hx as [_ <-]. lia.
      * intros j x Hj Hx. rewrite lookup_app_l in Hx by done.
        specialize (Hle j x Hx). lia.
    + apply Z.ltb_ge in Hy. apply IH.
      * by rewrite lookup_app_l.
      * intros j x Hx. apply lookup_app_Some in Hx as [Hx|[_ Hx]].
        -- by apply (Hle j).
        -- by apply list_lookup_singleton_Some in Hx as [_ <-].
      * intros j x Hj Hx. rewrite lookup_app_l in Hx by lia.
        by apply (Hlt j).
Qed.

Lemma np_argmin_spec l :
  l <> [] ->
  exists i m, np_argmin l = Ok i /\ l !! i = Some m /\
    (forall j x, l !! j = Some x -> (m <= x)%Z) /\
    (forall j x, j < i -> l !! j = Some x -> (m < x)%Z).
Proof.
  destruct l as [|y l]; [done|]. intros _. simpl.
  destruct (argmin_from_spec l [y] 0 y) as (m & ? & ? & ?); simpl in *.
  - done.
  - intros j x Hx. apply list_lookup_singleton_Some in Hx as [_ <-]. lia.
  - intros j x Hj. lia.
  - eauto 10.
Qed.

Lemma np_argmax_spec l :
  l <> [] ->
  exists i m, np_argmax l = Ok i /\ l !! i = Some m /\
    (forall j x, l !! j = Some x -> (x <= m)%Z) /\
    (forall j x, j < i -> l !! j = Some x -> (x < m)%Z).
Proof.
  destruct l as [|y l]; [done|]. intros _. simpl.
  destruct (argmax_from_spec l [y] 0 y) as (m & ? & ? & ?); simpl in *.
  - done.
  - intros j x Hx. apply list_lookup_singleton_Some in Hx as [_ <-]. lia.
  - intros j x Hj. lia.
  - eauto 10.
Qed.

(** The loop of lines 64 and 65 stores the count of each class. *)
Lemma counts_loop df classCol col (uniq : list cell) :
  getitem df classCol = Ok col ->
  forall k (acc : list Z),
  length acc = k + length uniq ->
  foldl (fun acc '(i, classVal) =>
           nClass ← acc;
           _ ← global_np g1;
           classSeries ← getitem df classCol;
           Ok (<[i := np_sum (eq_scalar classSeries classVal)]> nClass))
        (Ok acc) (imap (fun i x => (k + i, x)) uniq) =
  Ok (take k acc ++ (class_count col <$> uniq)).
Proof.
  intros Hcol. rewrite Hcol. simpl.
  induction uniq as [|v uniq IH]; intros k acc Hlen; simpl.
  - rewrite app_nil_r, take_ge; [done|]. simpl in Hlen. lia.
  - rewrite Nat.add_0_r.
    rewrite (imap_ext _ (fun i x => (S k + i, x)))
      by (intros; simpl; f_equal; lia).
    simpl in Hlen. rewrite IH by (rewrite length_insert; lia).
    f_equal. rewrite (take_S_r _ k (class_count col v)).
    + rewrite take_insert_ge by lia. by rewrite <- app_assoc.
    + apply list_lookup_insert_eq. lia.
Qed.

Lemma class_counts_ok df classCol col :
  getitem df classCol = Ok col ->
  class_counts g1 df classCol =
  Ok (unique col, class_count col <$> unique col).
Proof.
  intros Hcol. unfold class_counts.
  pose proof (counts_loop df classCol col (unique col) Hcol 0
                (np_zeros (length (unique col)))) as Hloop.
  rewrite Hcol in Hloop |- *. simpl in Hloop |- *.
  change (imap (fun i x => (i, x)) (unique col))
    with (imap pair (unique col)) in Hloop.
  rewrite Hloop; [done|].
  unfold np_zeros. by rewrite length_replicate.
Qed.

(** A class that appears in the column before [w] does is enumerated
    before [w]. *)
Lemma unique_precedes col k v w :
  col !! k = Some v -> (forall k', k' <= k -> col !! k' <> Some w) -> w ∈ col ->
  exists u1 u2 u3, unique col = u1 ++ v :: u2 ++ w :: u3.
Proof.
  revert k. induction col as [|x col IH]; intros k Hv Hw Hin; [done|].
  assert (x <> w) as Hxw.
  { intros ->. by apply (Hw 0); [lia|]. }
  apply elem_of_cons in Hin as [?|Hin]; [done|]. simpl.
  destruct k as [|k]; simpl in Hv.
  - simplify_eq.
    assert (w ∈ filter (fun y => y <> v) (unique col)) as Hf.
    { apply list_elem_of_filter. split; [done|]. by apply elem_of_unique. }
    apply list_elem_of_split in Hf as (u2 & u3 & ->). by exists [], u2, u3.
  - destruct (decide (v = x)) as [->|Hvx].
    + assert (w ∈ filter (fun y => y <> x) (unique col)) as Hf.
      { apply list_elem_of_filter. split; [done|]. by apply elem_of_unique. }
      apply list_elem_of_split in Hf as (u2 & u3 & ->). by exists [], u2, u3.
    + destruct (IH k Hv) as (u1 & u2 & u3 & ->); [|done|].
      { intros k' Hk'. apply (Hw (S k')). lia. }
      exists (x :: filter (fun y => y <> x) u1),
        (filter (fun y => y <> x) u2), (filter (fun y => y <> x) u3).
      rewrite filter_app, filter_cons_True by done.
      rewrite filter_app, filter_cons_True by done. done.
Qed.

Lemma unique_before col k v w i :
  col !! k = Some v -> (forall k', k' <= k -> col !! k' <> Some w) ->
  unique col !! i = Some w ->
  exists j, j < i /\ unique col !! j = Some v.
Proof.
  intros Hv Hw Hi.
  assert (w ∈ col) as Hin.
  { apply elem_of_unique. by eapply list_elem_of_lookup_2. }
  destruct (unique_precedes col k v w Hv Hw Hin) as (u1 & u2 & u3 & Heq).
  pose proof (NoDup_unique col) as Hnd. rewrite Heq in Hi, Hnd |- *.
  assert ((u1 ++ v :: u2 ++ w :: u3) !! (length u1 + S (length u2)) = Some w)
    as Hw'.
  { rewrite lookup_app_r by lia.
    replace (length u1 + S (length u2) - length u1) with (S (length u2)) by lia.
    simpl. rewrite lookup_app_r by lia. by rewrite Nat.sub_diag. }
  rewrite (NoDup_lookup _ _ _ _ Hnd Hi Hw').
  exists (length u1). split; [lia|].
  rewrite lookup_app_r by lia. by rewrite Nat.sub_diag.
Qed.

Lemma unique_nonempty col : col <> [] -> unique col <> [].
Proof. by destruct col. Qed.

(** What [minorityclass] returns for a class column with a row. *)
Lemma minorityclass_spec df classCol col :
  getitem df classCol = Ok col -> col <> [] ->
  exists minorIdx majorIdx minor major,
    np_argmin (class_count col <$> unique col) = Ok minorIdx /\
    np_argmax (class_count col <$> unique col) = Ok majorIdx /\
    unique col !! minorIdx = Some minor /\
    unique col !! majorIdx = Some major /\
    minorityclass df classCol =
      Ok (minor, (class_count col major - class_count col minor)%Z) /\
    (forall j v, unique col !! j = Some v ->
       (class_count col minor <= class_count col v <= class_count col major)%Z) /\
    (forall j v, j < minorIdx -> unique col !! j = Some v ->
       (class_count col minor < class_count col v)%Z) /\
    (forall j v, j < majorIdx -> unique col !! j = Some v ->
       (class_count col v < class_count col major)%Z).
Proof.
  intros Hcol Hne.
  assert (class_count col <$> unique col <> []) as Hn.
  { intros H%fmap_nil_inv. by apply unique_nonempty in H. }
  destruct (np_argmin_spec _ Hn) as (i & m & Hi & Him & Hmin & Hfirst).
  destruct (np_argmax_spec _ Hn) as (j & M & Hj & HjM & Hmax & Hfirst').
  apply list_lookup_fmap_Some_1 in Him as (minor & -> & Hminor).
  apply list_lookup_fmap_Some_1 in HjM as (major & -> & Hmajor).
  exists i, j, minor, major. repeat split; try done.
  - unfold EnigmaTransforms.minorityclass, minorityclass_text.
    rewrite (class_counts_ok df classCol col Hcol). simpl.
    unfold index. rewrite Hi. cbn [mbind result_bind]. rewrite Hminor.
    cbn [mbind result_bind]. rewrite Hj. cbn [mbind result_bind].
    rewrite !list_lookup_fmap, Hminor, Hmajor. done.
  - apply (Hmin j0). by rewrite list_lookup_fmap, H.
  - apply (Hmax j0). by rewrite list_lookup_fmap, H.
  - intros k v Hk Hv. apply (Hfirst k); [done|].
    by rewrite list_lookup_fmap, Hv.
  - intros k v Hk Hv. apply (Hfirst' k); [done|].
    by rewrite list_lookup_fmap, Hv.
Qed.

(** For a label that is not missing, the count of line 65 is the number
    of its occurrences; a missing entry equals nothing and counts 0. *)
Lemma class_count_occurrences col (a : num) :
  class_count col (Some a) = Z.of_nat (occurrences col (Some a)).
Proof.
  unfold class_count, np_sum, occurrences, eq_scalar. f_equal.
  induction col as [|x col IH]; [done|].
  simpl. rewrite !filter_cons. destruct x as [b|]; simpl.
  - destruct (decide (b = a)) as [->|Hba].
    + rewrite bool_decide_true by done. rewrite !decide_True by done.
      simpl. by rewrite IH.
    + rewrite bool_decide_false by done. rewrite decide_False by done.
      rewrite decide_False by congruence. done.
  - exact IH.
Qed.

Lemma class_count_NaN col : class_count col NaN = 0%Z.
Proof.
  unfold class_count, np_sum, eq_scalar.
  induction col as [|[b|] col IH]; simpl; [done|..]; by rewrite filter_cons_False.
Qed.

(** C3: for a class column with at least one row, [minorityclass]
    returns a label of the column whose count is the least and, as
    disparity, the greatest count minus the least; the disparity is not
    negative, it is 0 exactly when the greatest and the least count are
    equal, that is when all classes have the same count, as when there
    is one class only; the count of a label is the number of its
    occurrences; and for the column [x, x, x, y] the result is [y]
    and 2. *)
Theorem minorityclass_disparity df classCol col :
  getitem df classCol = Ok col -> col <> [] ->
  exists minor major d,
    minorityclass df classCol = Ok (minor, d) /\
    minor ∈ col /\ major ∈ col /\
    (forall v, v ∈ col ->
       (class_count col minor <= class_count col v <= class_count col major)%Z) /\
    d = (class_count col major - class_count col minor)%Z /\
    (0 <= d)%Z /\
    (d = 0%Z <-> class_count col major = class_count col minor) /\
    (d = 0%Z <->
       forall v w, v ∈ col -> w ∈ col -> class_count col v = class_count col w) /\
    ((forall v, v ∈ col -> v = minor) -> d = 0%Z) /\
    (forall a : num,
       class_count col (Some a) = Z.of_nat (occurrences col (Some a))) /\
    (forall x y : num, x <> y -> col = [Some x; Some x; Some x; Some y] ->
       minor = Some y /\ d = 2%Z).
Proof.
  intros Hcol Hne.
  destruct (minorityclass_spec df classCol col Hcol Hne)
    as (i & j & minor & major & _ & _ & Hi & Hj & Hrun & Hbounds & _ & _).
  assert (minor ∈ col) as Hminor
    by (apply elem_of_unique; by eapply list_elem_of_lookup_2).
  assert (major ∈ col) as Hmajor
    by (apply elem_of_unique; by eapply list_elem_of_lookup_2).
  assert (forall v, v ∈ col ->
            (class_count col minor <= class_count col v
               <= class_count col major)%Z) as Hb.
  { intros v Hv%elem_of_unique. apply list_elem_of_lookup in Hv as [k Hk].
    by apply (Hbounds k). }
  exists minor, major, (class_count col major - class_count col minor)%Z.
  split; [done|]. split; [done|]. split; [done|]. split; [done|].
  split; [done|]. split; [specialize (Hb minor Hminor); lia|].
  split; [lia|]. split; [|split; [|split]].
  - split.
    + intros Hd v w Hv Hw.
      pose proof (Hb v Hv). pose proof (Hb w Hw). lia.
    + intros Hall. rewrite (Hall major minor) by done. lia.
  - intros Hone. rewrite (Hone major Hmajor). lia.
  - apply class_count_occurrences.
  - intros x y Hxy ->.
    assert (class_count [Some x; Some x; Some x; Some y] (Some x) = 3%Z) as Hx.
    { unfold class_count, eq_scalar. simpl.
      rewrite bool_decide_true by done. rewrite bool_decide_false by done.
      done. }
    assert (class_count [Some x; Some x; Some x; Some y] (Some y) = 1%Z) as Hy.
    { unfold class_count, eq_scalar. simpl.
      rewrite bool_decide_false by done. rewrite bool_decide_true by done.
      done. }
    assert (Some x ∈ [Some x; Some x; Some x; Some y]) as Hxin by set_solver.
    assert (Some y ∈ [Some x; Some x; Some x; Some y]) as Hyin by set_solver.
    pose proof (Hb _ Hxin) as Hbx. pose proof (Hb _ Hyin) as Hby.
    rewrite Hx in Hbx. rewrite Hy in Hby.
    assert (minor = Some y) as ->.
    { assert (minor = Some x \/ minor = Some y) as [->| ->] by set_solver;
        [rewrite Hx in Hbx; lia|done]. }
    assert (major = Some x) as ->.
    { assert (major = Some x \/ major = Some y) as [->| ->] by set_solver;
        [done|rewrite Hy in Hby; lia]. }
    split; [done|]. rewrite Hx, Hy. done.
Qed.

(** C10: among the labels with the least count, [minorityclass] returns
    the one that appears first in the class column: every label that
    appears before it has a greater count; and the greatest count of the
    disparity is that of the label that appears first among those with
    the greatest count.  [argmin] and [argmax] return the first such
    position in the enumeration of the classes. *)
Theorem minorityclass_first_of_ties df classCol col :
  getitem df classCol = Ok col -> col <> [] ->
  exists minorIdx majorIdx minor major,
    class_counts g1 df classCol =
      Ok (unique col, class_count col <$> unique col) /\
    np_argmin (class_count col <$> unique col) = Ok minorIdx /\
    np_argmax (class_count col <$> unique col) = Ok majorIdx /\
    unique col !! minorIdx = Some minor /\
    unique col !! majorIdx = Some major /\
    minorityclass df classCol =
      Ok (minor, (class_count col major - class_count col minor)%Z) /\
    (forall v, v ∈ col -> (class_count col minor <= class_count col v)%Z) /\
    (forall k v, col !! k = Some v ->
       (forall k', k' <= k -> col !! k' <> Some minor) ->
       (class_count col minor < class_count col v)%Z) /\
    (forall v, v ∈ col -> (class_count col v <= class_count col major)%Z) /\
    (forall k v, col !! k = Some v ->
       (forall k', k' <= k -> col !! k' <> Some major) ->
       (class_count col v < class_count col major)%Z).
Proof.
  intros Hcol Hne.
  destruct (minorityclass_spec df classCol col Hcol Hne)
    as (i & j & minor & major & Hi & Hj & Hminor & Hmajor & Hrun & Hbounds
        & Hfirst & Hfirst').
  exists i, j, minor, major.
  split; [by apply class_counts_ok|].
  do 5 (split; [done|]).
  split; [|split; [|split]].
  - intros v Hv%elem_of_unique. apply list_elem_of_lookup in Hv as [k Hk].
    by apply (Hbounds k).
  - intros k v Hv Hbefore.
    destruct (unique_before col k v minor i Hv Hbefore Hminor) as (j' & ? & ?).
    by apply (Hfirst j').
  - intros v Hv%elem_of_unique. apply list_elem_of_lookup in Hv as [k Hk].
    by apply (Hbounds k).
  - intros k v Hv Hbefore.
    destruct (unique_before col k v major j Hv Hbefore Hmajor) as (j' & ? & ?).
    by apply (Hfirst' j').
Qed.

End Minorityclass.

(** ** The second module *)

Section Unbound.

Context {num : Type} `{!EqDecision num}.
Variable mean : list num -> option num.
Variable slice_is_view : bool.

#[local] Abbreviation DataFrame := (DataFrame num).
#[local] Abbreviation g2 := EnigmaTransformations.module_globals.

Implicit Types (df : DataFrame).

(** In enigmatransformations.py [minorityclass] never returns: [np] is
    unbound when line 55 asks for [np.zeros]. *)
Lemma minorityclass_unbound_np df classCol :
  EnigmaTransformations.minorityclass df classCol = Raise KeyError \/
  EnigmaTransformations.minorityclass df classCol = Raise NameError.
Proof.
  unfold EnigmaTransformations.minorityclass, minorityclass_text, class_counts.
  destruct (getitem_cases df classCol) as [[col ->]|[_ ->]]; simpl; auto.
Qed.

(** There [classfill] raises [NameError] at line 33, before any write,
    as soon as there is a site, a class and a column in the range. *)
Lemma classfill_unbound_np df classCol siteCol idxRange ss cs lo hi :
  located df classCol siteCol idxRange ss cs lo hi ->
  ss <> [] -> cs <> [] -> cols_between df lo hi <> [] ->
  EnigmaTransformations.classfill mean slice_is_view df classCol siteCol idxRange
  = (Raise NameError, df).
Proof.
  intros (Hcs & Hss & Hloc) Hs Hc Hd.
  unfold EnigmaTransformations.classfill, classfill_text, classfill_body.
  rewrite run_bind. simpl. rewrite run_bind. unfold lift. rewrite Hcs. simpl.
  rewrite run_bind. rewrite Hss. simpl.
  rewrite run_bind. unfold bind_data. simpl. rewrite Hloc. simpl.
  destruct ss as [|sv ss]; [done|]. destruct cs as [|cv cs]; [done|].
  destruct (cols_between df lo hi) as [|c data] eqn:Hdata; [done|].
  simpl. rewrite ?run_bind. unfold classfill_site at 1.
  rewrite ?run_bind. simpl. rewrite ?run_bind. unfold lift. rewrite Hss.
  simpl. rewrite ?run_bind. unfold classfill_class at 1.
  rewrite ?run_bind. simpl. rewrite ?run_bind. unfold lift. rewrite Hcs.
  simpl. rewrite ?run_bind. simpl. done.
Qed.

End Unbound.

(** * Runs on concrete frames *)

(** The two examples of the specification: a group of two rows, and four
    groups of one row each, which [classfill] leaves as they are. *)
Example classfill_one_group (view : bool) :
  EnigmaTransforms.classfill Qmean view frame_one_group "class" "site" ("f", "f")
  = (Ok frame_one_group_filled, frame_one_group_filled).
Proof. by destruct view; vm_compute. Qed.

Example classfill_singletons (view : bool) :
  EnigmaTransforms.classfill Qmean view frame_singletons "class" "site" ("f", "f")
  = (Ok frame_singletons, frame_singletons).
Proof. by destruct view; vm_compute. Qed.

Lemma located_two_groups :
  located frame_two_groups "class" "site" ("f", "g")
    [Some 0%Q; Some 0%Q; Some 0%Q; Some 1%Q; Some 1%Q]
    [Some 0%Q; Some 0%Q; Some 0%Q; Some 1%Q; Some 1%Q] 1 3.
Proof. by vm_compute. Qed.

Lemma reversed_enumeration {num : Type} :
  enumeration (loop_pairs_reversed (num := num)).
Proof. intros sites classes. apply reverse_Permutation. Qed.

Lemma loop_pairs_enumeration {num : Type} :
  enumeration (loop_pairs (num := num)).
Proof. by intros sites classes. Qed.

(** C1 on [frame_two_groups]: the missing cell of [f] in row 1 receives
    3/2, the mean of 1 and 2. *)
Lemma classfill_fills_group_mean_witness :
  exists df' s',
    EnigmaTransforms.classfill Qmean true frame_two_groups "class" "site"
      ("f", "g") = (Ok df', df') /\
    df' !! 1 = Some ("f", s') /\ s' !! 1 = Some (Some (3 # 2)%Q).
Proof.
  destruct (classfill_fills_group_mean Qmean true frame_two_groups
              "class" "site" ("f", "g") _ _ 1 3 1 "f"
              [Some 1%Q; None; Some 2%Q; None; Some 5%Q] 0%Q 0%Q 1
              located_two_groups)
    as (df' & s' & Hrun & Hk & Hr).
  - lia.
  - reflexivity.
  - split; reflexivity.
  - reflexivity.
  - vm_compute. discriminate.
  - exists df', s'. split; [exact Hrun|]. split; [exact Hk|].
    rewrite Hr. vm_compute. reflexivity.
Defined.

(** C2 on [frame_two_groups]: the group of site 1 and class 1 has no
    number in [g]; its cells are NaN after the call. *)
Lemma classfill_all_missing_group_witness :
  exists df' s',
    EnigmaTransforms.classfill Qmean true frame_two_groups "class" "site"
      ("f", "g") = (Ok df', df') /\
    df' !! 2 = Some ("g", s') /\ s' !! 3 = Some NaN /\ s' !! 4 = Some NaN.
Proof.
  destruct (classfill_all_missing_group Qmean true frame_two_groups
              "class" "site" ("f", "g") _ _ 1 3 2 "g"
              [None; Some 3%Q; Some 4%Q; None; None] 1%Q 1%Q
              located_two_groups)
    as (df' & s' & Hrun & Hk & _ & Hnan).
  - lia.
  - reflexivity.
  - intros [|[|[|[|[|r]]]]] [Hs Hc]; vm_compute in Hs, Hc |- *;
      congruence.
  - exists df', s'. split; [exact Hrun|]. split; [exact Hk|].
    split; apply Hnan; split; reflexivity.
Defined.

(** C4 on [frame_two_groups]: the site column is as it was and the
    number 5 of [f] is in its place. *)
Lemma classfill_frame_witness :
  exists df',
    EnigmaTransforms.classfill Qmean false frame_two_groups "class" "site"
      ("f", "g") = (Ok df', df') /\
    df' !! 0 = frame_two_groups !! 0 /\
    exists s', df' !! 1 = Some ("f", s') /\ s' !! 4 = Some (Some 5%Q).
Proof.
  destruct (classfill_frame Qmean false frame_two_groups "class" "site"
              ("f", "g") _ _ 1 3 located_two_groups)
    as (df' & Hrun & _ & Hout & _ & _ & Hin).
  exists df'. split; [exact Hrun|]. split.
  - apply Hout; [lia|reflexivity].
  - destruct (Hin 1 "f" [Some 1%Q; None; Some 2%Q; None; Some 5%Q])
      as (s' & Hs' & _ & Hkeep); [lia|reflexivity|].
    exists s'. split; [exact Hs'|]. apply Hkeep. reflexivity.
Defined.

(** C5: a frame without rows is returned, not refused. *)
Lemma classfill_zero_rows_counterexample :
  nrows frame_no_rows = 0 /\
  EnigmaTransforms.classfill Qmean false frame_no_rows "class" "site" ("f", "f")
  = (Ok frame_no_rows, frame_no_rows) /\
  forall e st,
    EnigmaTransforms.classfill Qmean false frame_no_rows "class" "site" ("f", "f")
    <> (Raise e, st).
Proof. split; [reflexivity|]. split; [by vm_compute|]. by vm_compute. Qed.

Lemma classfill_zero_rows_witness :
  EnigmaTransforms.classfill Qmean true frame_no_rows "class" "site" ("f", "f")
  = (Ok frame_no_rows, frame_no_rows).
Proof.
  apply (classfill_zero_rows Qmean true frame_no_rows "class" "site" ("f", "f")
           [] [] 2 3).
  - repeat constructor.
  - reflexivity.
  - by vm_compute.
Defined.

(** C6: the labels of [frame_sorted] are in alphabetical order; neither
    [f0] nor [f3] is among them, yet the call returns, with the columns
    [f1] and [f2] filled. *)
Lemma classfill_missing_column_counterexample :
  ("f0" ∉ columns frame_sorted) /\ ("f3" ∉ columns frame_sorted) /\
  EnigmaTransforms.classfill Qmean false frame_sorted "class" "site" ("f0", "f3")
  = (Ok frame_sorted_filled, frame_sorted_filled) /\
  frame_sorted_filled <> frame_sorted.
Proof.
  split; [|split; [|split]].
  - unfold columns. simpl. set_solver.
  - unfold columns. simpl. set_solver.
  - by vm_compute.
  - discriminate.
Qed.

Lemma classfill_missing_column_witness :
  EnigmaTransforms.classfill Qmean true frame_one_group "class" "site" ("e", "f")
  = (Raise KeyError, frame_one_group).
Proof.
  apply (classfill_missing_column Qmean true frame_one_group "class" "site"
           ("e", "f")).
  right. right. split; [|split; reflexivity].
  left. unfold columns. simpl. set_solver.
Defined.

(** C7 on [frame_two_groups]. *)
Lemma classfill_idempotent_witness :
  EnigmaTransforms.classfill Qmean true frame_two_groups_filled "class" "site"
    ("f", "g") = (Ok frame_two_groups_filled, frame_two_groups_filled).
Proof.
  apply (classfill_idempotent Qmean true frame_two_groups "class" "site"
           ("f", "g") frame_two_groups_filled frame_two_groups_filled).
  by vm_compute.
Defined.

(** C8 on [frame_two_groups]: the pairs in the order of the loops and
    in the opposite order. *)
Lemma classfill_order_independent_witness :
  classfill_in_order Qmean true EnigmaTransforms.module_globals
    loop_pairs frame_two_groups "class" "site" ("f", "g") =
  classfill_in_order Qmean true EnigmaTransforms.module_globals
    loop_pairs_reversed frame_two_groups "class" "site" ("f", "g").
Proof.
  exact (proj1 (classfill_order_independent Qmean true
                  loop_pairs loop_pairs_reversed
                  frame_two_groups "class" "site" ("f", "g")
                  loop_pairs_enumeration reversed_enumeration)).
Defined.

(** C3 on the class column [0, 0, 0, 1]. *)
Lemma minorityclass_disparity_witness :
  exists minor d,
    EnigmaTransforms.minorityclass frame_classes "Dx" = Ok (minor, d) /\
    minor = Some 1%Q /\ d = 2%Z.
Proof.
  destruct (minorityclass_disparity frame_classes "Dx"
              [Some 0%Q; Some 0%Q; Some 0%Q; Some 1%Q])
    as (minor & major & d & Hrun & _ & _ & _ & _ & _ & _ & _ & _ & _ & Hex).
  - reflexivity.
  - discriminate.
  - exists minor, d. split; [exact Hrun|].
    apply (Hex 0%Q 1%Q); [discriminate|reflexivity].
Defined.

(** C10 on the class column [2, 0, 2, 1]: the classes 0 and 1 have one
    row each, and 0, which appears first, is returned. *)
Lemma minorityclass_first_of_ties_witness :
  exists minorIdx majorIdx minor major,
    unique [Some 2%Q; Some 0%Q; Some 2%Q; Some 1%Q] !! minorIdx = Some minor /\
    unique [Some 2%Q; Some 0%Q; Some 2%Q; Some 1%Q] !! majorIdx = Some major /\
    EnigmaTransforms.minorityclass frame_ties "Dx" =
      Ok (minor,
          (class_count [Some 2%Q; Some 0%Q; Some 2%Q; Some 1%Q] major -
           class_count [Some 2%Q; Some 0%Q; Some 2%Q; Some 1%Q] minor)%Z) /\
    EnigmaTransforms.minorityclass frame_ties "Dx" = Ok (Some 0%Q, 1%Z).
Proof.
  destruct (minorityclass_first_of_ties frame_ties "Dx"
              [Some 2%Q; Some 0%Q; Some 2%Q; Some 1%Q])
    as (i & j & minor & major & _ & _ & _ & Hi & Hj & Hrun & _).
  - reflexivity.
  - discriminate.
  - exists i, j, minor, major. split; [exact Hi|]. split; [exact Hj|].
    split; [exact Hrun|]. reflexivity.
Defined.

(** C9: the two files hold the same text, but enigmatransformations.py
    does not import numpy: there [minorityclass] raises for every input,
    and [classfill] raises wherever it has a cell to look at, while the
    functions of enigmatransforms.py return. *)
Theorem modules_differ :
  (forall (num : Type) (eq : EqDecision num) (df : DataFrame num) classCol,
     exists e, EnigmaTransformations.minorityclass df classCol = Raise e) /\
  EnigmaTransforms.minorityclass frame_classes "Dx" = Ok (Some 1%Q, 2%Z) /\
  EnigmaTransformations.minorityclass frame_classes "Dx" = Raise NameError /\
  (forall view,
     EnigmaTransforms.classfill Qmean view frame_one_group "class" "site"
       ("f", "f") = (Ok frame_one_group_filled, frame_one_group_filled)) /\
  (forall view,
     EnigmaTransformations.classfill Qmean view frame_one_group "class" "site"
       ("f", "f") = (Raise NameError, frame_one_group)).
Proof.
  split; [|split; [|split; [|split]]].
  - intros num eq df classCol.
    destruct (minorityclass_unbound_np df classCol) as [-> | ->]; eauto.
  - reflexivity.
  - reflexivity.
  - intros []; by vm_compute.
  - intros []; by vm_compute.
Qed.

(** * Further properties *)

(** ** [classfill]: outcomes, rows without a group, cells left missing *)

Section ClassfillMore.

Context {num : Type} `{!EqDecision num}.
Variable mean : list num -> option num.
Variable slice_is_view : bool.

#[local] Abbreviation cell := (cell num).
#[local] Abbreviation series := (series num).
#[local] Abbreviation DataFrame := (DataFrame num).
#[local] Abbreviation g1 := EnigmaTransforms.module_globals.
#[local] Abbreviation classfill := (EnigmaTransforms.classfill mean slice_is_view).

Implicit Types (df : DataFrame) (s ss cs : series) (lo hi k r : nat).
Implicit Types (ps : list (cell * cell)) (a b : num).

(** The rows of a group mask are the rows of a group of two values. *)
Lemma group_mask_in_group ss cs (p : cell * cell) r :
  group_mask ss cs p !! r = Some true ->
  exists a b, p = (Some a, Some b) /\ in_group ss cs a b r.
Proof.
  unfold group_mask. rewrite lookup_mask_and, !lookup_eq_scalar.
  intros [(a & Ha & Hs) (b & Hb & Hc)]. exists a, b.
  destruct p as [p1 p2]. simpl in *. subst. by split.
Qed.

(** A frame in which no pair has a missing cell to fill is left as it is. *)
Lemma filled_same df lo hi ss cs ps :
  (forall k lbl s r p, lo <= k < hi -> df !! k = Some (lbl, s) ->
     s !! r = Some None -> p ∈ ps -> group_mask ss cs p !! r <> Some true) ->
  filled mean df lo hi ss cs ps = df.
Proof.
  intros H. apply list_eq. intros k. rewrite lookup_filled.
  destruct (df !! k) as [[lbl s]|] eqn:Hdf; simpl; [|done].
  case_bool_decide as Hk; [|done]. do 2 f_equal.
  apply list_eq. intros r. apply lookup_fill_groups_miss.
  destruct (decide (s !! r = Some None)) as [Hs|Hs]; [|by left].
  right. intros p Hp. by apply (H k lbl s r p).
Qed.

(** X4: a call of [classfill] returns exactly when the class column, the
    site column and the range are found, and the frame it returns is the
    caller's frame in its final state; any other call raises [KeyError]
    and leaves the caller's frame as it was. *)
Theorem classfill_outcome df classCol siteCol idxRange :
  (exists ss cs lo hi df',
     located df classCol siteCol idxRange ss cs lo hi /\
     classfill df classCol siteCol idxRange = (Ok df', df')) \/
  ((forall ss cs lo hi, ~ located df classCol siteCol idxRange ss cs lo hi) /\
   classfill df classCol siteCol idxRange = (Raise KeyError, df)).
Proof.
  destruct (located_or_raise mean slice_is_view g1 loop_pairs
              df classCol siteCol idxRange)
    as [(ss & cs & lo & hi & Hloc)|[Hr _]].
  - left. exists ss, cs, lo, hi. eexists. split; [done|].
    by rewrite (classfill_located mean slice_is_view _ _ _ _ _ _ _ _ Hloc).
  - right. split; [|done]. intros ss cs lo hi Hloc.
    pose proof (classfill_located mean slice_is_view _ _ _ _ _ _ _ _ Hloc) as Hok.
    unfold EnigmaTransforms.classfill in Hok. rewrite Hr in Hok. done.
Qed.

(** X5: a frame without a missing cell in the feature range is returned
    as it is. *)
Theorem classfill_complete_frame df classCol siteCol idxRange ss cs lo hi :
  located df classCol siteCol idxRange ss cs lo hi ->
  (forall k lbl s r, lo <= k < hi -> df !! k = Some (lbl, s) ->
     s !! r <> Some NaN) ->
  classfill df classCol siteCol idxRange = (Ok df, df).
Proof.
  intros Hloc Hfull.
  rewrite (classfill_located mean slice_is_view _ _ _ _ _ _ _ _ Hloc). simpl.
  rewrite filled_same; [done|].
  intros k lbl s r p Hk Hdf Hs. by destruct (Hfull k lbl s r Hk Hdf).
Qed.

(** X6: a missing cell in a row whose site or class is missing belongs
    to no group and is still missing after the call. *)
Theorem classfill_row_without_group df classCol siteCol idxRange ss cs lo hi
    k lbl s r :
  located df classCol siteCol idxRange ss cs lo hi ->
  lo <= k < hi -> df !! k = Some (lbl, s) ->
  s !! r = Some NaN ->
  ss !! r = Some NaN \/ cs !! r = Some NaN ->
  exists df' s',
    classfill df classCol siteCol idxRange = (Ok df', df') /\
    df' !! k = Some (lbl, s') /\ s' !! r = Some NaN.
Proof.
  intros Hloc Hk Hdf Hs Hrow.
  rewrite (classfill_located mean slice_is_view _ _ _ _ _ _ _ _ Hloc). simpl.
  eexists _, _. split; [done|].
  rewrite lookup_filled, Hdf. simpl. rewrite bool_decide_true by done.
  split; [done|]. rewrite lookup_fill_groups_miss; [done|].
  right. intros p _ Hp.
  apply group_mask_in_group in Hp as (a & b & _ & Ha & Hb).
  destruct Hrow; congruence.
Qed.


(** X8: when the first boundary of the range is a column that comes
    after the second, the range is empty and the frame is returned as it
    is. *)
Theorem classfill_reversed_range df classCol siteCol idxRange ss cs i j :
  getitem df classCol = Ok cs -> getitem df siteCol = Ok ss ->
  get_loc (columns df) idxRange.1 = Ok i ->
  get_loc (columns df) idxRange.2 = Ok j ->
  j < i ->
  classfill df classCol siteCol idxRange = (Ok df, df).
Proof.
  intros Hcs Hss Hi Hj Hlt.
  assert (located df classCol siteCol idxRange ss cs i (S j)) as Hloc.
  { split; [done|]. split; [done|].
    unfold slice_locs, get_slice_bound. by rewrite Hi, Hj. }
  rewrite (classfill_located mean slice_is_view _ _ _ _ _ _ _ _ Hloc). simpl.
  rewrite filled_same; [done|]. intros k lbl s r p Hk. lia.
Qed.

(** X11: after a call of [classfill] that returns, [minorityclass] on
    the class column (or the site column) gives what it gave before. *)
Theorem minorityclass_after_classfill df classCol siteCol idxRange df' st :
  classfill df classCol siteCol idxRange = (Ok df', st) ->
  EnigmaTransforms.minorityclass df' classCol =
    EnigmaTransforms.minorityclass df classCol /\
  EnigmaTransforms.minorityclass df' siteCol =
    EnigmaTransforms.minorityclass df siteCol.
Proof.
  intros Hrun.
  destruct (located_or_raise mean slice_is_view g1 loop_pairs
              df classCol siteCol idxRange)
    as [(ss & cs & lo & hi & Hloc)|[Hr _]].
  - rewrite (classfill_located mean slice_is_view _ _ _ _ _ _ _ _ Hloc) in Hrun.
    simpl in Hrun. injection Hrun as <- _.
    destruct (located_filled mean df classCol siteCol idxRange ss cs lo hi
                (loop_pairs (unique ss) (unique cs)) Hloc) as (Hcs' & Hss' & _).
    destruct Hloc as (Hcs & Hss & _).
    unfold EnigmaTransforms.minorityclass, minorityclass_text, class_counts.
    by rewrite Hcs', Hss', Hcs, Hss.
  - unfold EnigmaTransforms.classfill in Hrun. rewrite Hr in Hrun. done.
Qed.

End ClassfillMore.

(** ** [minorityclass]: outcomes, missing labels, counts, row order *)

Section MinorityclassMore.

Context {num : Type} `{!EqDecision num}.

#[local] Abbreviation cell := (cell num).
#[local] Abbreviation series := (series num).
#[local] Abbreviation DataFrame := (DataFrame num).
#[local] Abbreviation g1 := EnigmaTransforms.module_globals.
#[local] Abbreviation minorityclass := (EnigmaTransforms.minorityclass (num := num)).

Implicit Types (df : DataFrame) (col : series) (v w : cell).

Lemma class_count_cons x col v :
  class_count (x :: col) v =
  ((if cell_eq x v then 1 else 0) + class_count col v)%Z.
Proof.
  unfold class_count, np_sum, eq_scalar. simpl. rewrite filter_cons.
  destruct (cell_eq x v); simpl; lia.
Qed.

Lemma class_count_nonneg col v : (0 <= class_count col v)%Z.
Proof. unfold class_count, np_sum. lia. Qed.

Lemma class_count_elem col (a : num) :
  Some a ∈ col -> (1 <= class_count col (Some a))%Z.
Proof.
  induction col as [|x col IH]; intros Hin; [by apply elem_of_nil in Hin|].
  rewrite class_count_cons. pose proof (class_count_nonneg col (Some a)).
  apply elem_of_cons in Hin as [<-|Hin].
  - simpl. rewrite bool_decide_true by done. lia.
  - specialize (IH Hin). destruct (cell_eq x (Some a)); lia.
Qed.

Lemma class_count_perm col col' v :
  col ≡ₚ col' -> class_count col v = class_count col' v.
Proof.
  induction 1 as [|x l l' _ IH|x y l|l l' l'' _ IH1 _ IH2].
  - done.
  - by rewrite !class_count_cons, IH.
  - rewrite !class_count_cons. lia.
  - by rewrite IH1.
Qed.

Lemma sumZ_zero {A : Type} (u : list A) :
  sumZ ((fun _ => 0%Z) <$> u) = 0%Z.
Proof.
  unfold sumZ. induction u as [|x u IH]; csimpl; [done|]. by rewrite IH.
Qed.

Lemma sumZ_add {A : Type} (f g : A -> Z) (u : list A) :
  sumZ ((fun x => (f x + g x)%Z) <$> u) = (sumZ (f <$> u) + sumZ (g <$> u))%Z.
Proof.
  unfold sumZ. induction u as [|x u IH]; csimpl; [done|]. rewrite IH. lia.
Qed.

Lemma sumZ_nonneg {A : Type} (f : A -> Z) (u : list A) :
  (forall x, (0 <= f x)%Z) -> (0 <= sumZ (f <$> u))%Z.
Proof.
  intros Hf. unfold sumZ. induction u as [|x u IH]; [done|].
  rewrite fmap_cons. cbn [foldr]. specialize (Hf x). lia.
Qed.

Lemma sumZ_lookup {A : Type} (f : A -> Z) (u : list A) j x :
  (forall x, (0 <= f x)%Z) -> u !! j = Some x -> (f x <= sumZ (f <$> u))%Z.
Proof.
  intros Hf. revert j. induction u as [|y u IH]; intros j Hj; [done|].
  pose proof (sumZ_nonneg f u Hf) as Hu. pose proof (Hf y) as Hy.
  unfold sumZ in *. rewrite fmap_cons. cbn [foldr].
  destruct j as [|j]; simpl in Hj.
  - injection Hj as ->. lia.
  - specialize (IH j Hj). lia.
Qed.

(** A value is equal to one class of an enumeration without repetition. *)
Lemma sumZ_indicator (u : list cell) (a : num) :
  NoDup u ->
  sumZ ((fun v => if cell_eq (Some a) v then 1%Z else 0%Z) <$> u) =
  if decide (Some a ∈ u) then 1%Z else 0%Z.
Proof.
  unfold sumZ. induction 1 as [|v u Hv Hnd IH]; [done|].
  rewrite fmap_cons. cbn [foldr]. rewrite IH.
  destruct (decide (Some a ∈ v :: u)) as [Hin'|Hin'];
    destruct (decide (Some a ∈ u)) as [Hin|Hin];
    destruct v as [b|]; simpl; try case_bool_decide; subst;
    try done; exfalso; set_solver.
Qed.

(** The counts of an enumeration of the classes add up to the number of
    rows that hold a class. *)
Lemma sumZ_class_count (u : list cell) col :
  NoDup u -> (forall a : num, Some a ∈ col -> Some a ∈ u) ->
  sumZ (class_count col <$> u) = Z.of_nat (labelled col).
Proof.
  intros Hnd. induction col as [|x col IH]; intros Hu.
  - unfold labelled. simpl. apply sumZ_zero.
  - rewrite (list_fmap_ext _
               (fun v => ((if cell_eq x v then 1 else 0) + class_count col v)%Z)
               u) by (intros; apply class_count_cons).
    rewrite sumZ_add, IH by (intros a Ha; apply Hu; by right).
    unfold labelled. rewrite filter_cons. destruct x as [a|].
    + rewrite sumZ_indicator by done.
      rewrite decide_True by (apply Hu; left).
      rewrite decide_True by done. simpl. lia.
    + rewrite decide_False by (by intros []).
      rewrite (list_fmap_ext _ (fun _ => 0%Z) u) by done.
      rewrite sumZ_zero. lia.
Qed.

(** X1: [minorityclass] raises [KeyError] when the class column is
    absent and [ValueError] when the class column has no row; for a
    class column with a row it returns. *)
Theorem minorityclass_outcome df classCol :
  ((classCol ∉ columns df) /\ minorityclass df classCol = Raise KeyError) \/
  (getitem df classCol = Ok [] /\ minorityclass df classCol = Raise ValueError) \/
  (exists col minor d,
     getitem df classCol = Ok col /\ col <> [] /\
     minorityclass df classCol = Ok (minor, d)).
Proof.
  destruct (getitem_cases df classCol) as [[col Hcol]|[Hn Hcol]].
  - destruct col as [|x col].
    + right. left. split; [done|].
      unfold EnigmaTransforms.minorityclass, minorityclass_text.
      by rewrite (class_counts_ok df classCol [] Hcol).
    + right. right.
      destruct (minorityclass_spec df classCol (x :: col) Hcol)
        as (i & j & minor & major & _ & _ & _ & _ & Hrun & _); [done|].
      exists (x :: col), minor. eexists. by split.
  - left. split; [done|].
    unfold EnigmaTransforms.minorityclass, minorityclass_text, class_counts.
    by rewrite Hcol.
Qed.

(** X2: when the class column has a missing entry, the label that
    [minorityclass] returns is NaN, a class of count 0, and the
    disparity is the greatest count of a class. *)
Theorem minorityclass_missing_label df classCol col :
  getitem df classCol = Ok col -> NaN ∈ col ->
  exists major,
    minorityclass df classCol = Ok (NaN, class_count col major) /\
    major ∈ col /\
    forall v, v ∈ col -> (class_count col v <= class_count col major)%Z.
Proof.
  intros Hcol Hnan.
  destruct (minorityclass_spec df classCol col Hcol)
    as (i & j & minor & major & _ & _ & Hi & Hj & Hrun & Hbounds & _ & _).
  { intros ->. by apply elem_of_nil in Hnan. }
  assert (forall v, v ∈ col ->
            (class_count col minor <= class_count col v
               <= class_count col major)%Z) as Hb.
  { intros v Hv%elem_of_unique. apply list_elem_of_lookup in Hv as [k Hk].
    by apply (Hbounds k). }
  assert (minor ∈ col) as Hminor
    by (apply elem_of_unique; by eapply list_elem_of_lookup_2).
  assert (major ∈ col) as Hmajor
    by (apply elem_of_unique; by eapply list_elem_of_lookup_2).
  assert (minor = None) as ->.
  { destruct minor as [a|]; [|done].
    pose proof (class_count_elem col a Hminor).
    pose proof (Hb None Hnan) as [Hle _].
    rewrite class_count_NaN in Hle. lia. }
  exists major. rewrite Hrun, class_count_NaN, Z.sub_0_r.
  split; [done|]. split; [done|]. intros v Hv. by apply Hb.
Qed.

(** X3: the counts of lines 62 to 65, one for each distinct class, add
    up to the number of rows that hold a class; the disparity is at most
    that number. *)
Theorem class_counts_sum df classCol col :
  getitem df classCol = Ok col ->
  exists nClass,
    class_counts g1 df classCol = Ok (unique col, nClass) /\
    length nClass = length (unique col) /\
    sumZ nClass = Z.of_nat (labelled col) /\
    forall minor d,
      minorityclass df classCol = Ok (minor, d) ->
      (0 <= d <= Z.of_nat (labelled col))%Z.
Proof.
  intros Hcol. exists (class_count col <$> unique col).
  split; [by apply class_counts_ok|]. split; [by rewrite length_fmap|].
  assert (sumZ (class_count col <$> unique col) = Z.of_nat (labelled col))
    as Hsum.
  { apply sumZ_class_count; [apply NoDup_unique|].
    intros a Ha. by apply elem_of_unique. }
  split; [done|]. intros minor d Hrun.
  destruct col as [|x col].
  { unfold EnigmaTransforms.minorityclass, minorityclass_text in Hrun.
    by rewrite (class_counts_ok df classCol [] Hcol) in Hrun. }
  destruct (minorityclass_spec df classCol (x :: col) Hcol)
    as (i & j & minor' & major & _ & _ & Hi & Hj & Hrun' & Hbounds & _ & _);
    [done|].
  rewrite Hrun' in Hrun. injection Hrun as <- <-.
  pose proof (Hbounds i minor' Hi) as [_ Hle].
  pose proof (class_count_nonneg (x :: col) minor').
  split; [lia|].
  assert (class_count (x :: col) major <= Z.of_nat (labelled (x :: col)))%Z;
    [|lia].
  rewrite <- Hsum.
  apply (sumZ_lookup (class_count (x :: col)) _ j); [|done].
  intros v. apply class_count_nonneg.
Qed.

(** X12: the disparity does not depend on the order of the rows: two
    class columns with the same rows in any order give the same
    disparity, and labels of the same count. *)
Theorem minorityclass_row_order df df' classCol classCol' col col' :
  getitem df classCol = Ok col -> getitem df' classCol' = Ok col' ->
  col ≡ₚ col' -> col <> [] ->
  exists minor minor' d,
    minorityclass df classCol = Ok (minor, d) /\
    minorityclass df' classCol' = Ok (minor', d) /\
    class_count col minor = class_count col' minor'.
Proof.
  intros Hcol Hcol' Hperm Hne.
  assert (col' <> []) as Hne'.
  { intros ->. by apply Permutation_nil_r in Hperm. }
  destruct (minorityclass_spec df classCol col Hcol Hne)
    as (i & j & minor & major & _ & _ & Hi & Hj & Hrun & Hbounds & _ & _).
  destruct (minorityclass_spec df' classCol' col' Hcol' Hne')
    as (i' & j' & minor' & major' & _ & _ & Hi' & Hj' & Hrun' & Hbounds' & _ & _).
  assert (forall v, v ∈ col ->
            (class_count col minor <= class_count col v
               <= class_count col major)%Z) as Hb.
  { intros v Hv%elem_of_unique. apply list_elem_of_lookup in Hv as [k Hk].
    by apply (Hbounds k). }
  assert (forall v, v ∈ col' ->
            (class_count col' minor' <= class_count col' v
               <= class_count col' major')%Z) as Hb'.
  { intros v Hv%elem_of_unique. apply list_elem_of_lookup in Hv as [k Hk].
    by apply (Hbounds' k). }
  assert (forall u k (w : cell), unique u !! k = Some w -> w ∈ u) as Hin.
  { intros u k w Hw. apply elem_of_unique. by eapply list_elem_of_lookup_2. }
  pose proof (Hb minor' ltac:(rewrite Hperm; by eapply Hin)) as Hm1.
  pose proof (Hb major' ltac:(rewrite Hperm; by eapply Hin)) as HM1.
  pose proof (Hb' minor ltac:(rewrite <- Hperm; by eapply Hin)) as Hm2.
  pose proof (Hb' major ltac:(rewrite <- Hperm; by eapply Hin)) as HM2.
  rewrite !(class_count_perm col col') in * by done.
  exists minor, minor', (class_count col' major - class_count col' minor)%Z.
  split; [done|].
  split; [|rewrite (class_count_perm col col') by done; lia].
  rewrite Hrun'. do 2 f_equal. lia.
Qed.

End MinorityclassMore.

(** ** The module without numpy *)

Section UnboundMore.

Context {num : Type} `{!EqDecision num}.
Variable mean : list num -> option num.
Variable slice_is_view : bool.

#[local] Abbreviation DataFrame := (DataFrame num).
#[local] Abbreviation M := (M num).

Implicit Types (df : DataFrame) (h : heap num).

(** A loop whose body does nothing does nothing. *)
Lemma for_each_idle {A : Type} (xs : list A) (body : A -> M unit) h :
  (forall x, x ∈ xs -> body x h = (Ok tt, h)) ->
  for_each xs body h = (Ok tt, h).
Proof.
  induction xs as [|x xs IH]; intros Hbody; [done|].
  simpl. rewrite run_bind, Hbody by left.
  apply IH. intros y Hy. apply Hbody. by right.
Qed.

(** Without a site, a class or a column in the range the loops never
    reach [np]: the call returns the frame as it is, in any module. *)
Lemma classfill_text_idle g df classCol siteCol idxRange ss cs lo hi :
  located df classCol siteCol idxRange ss cs lo hi ->
  ss = [] \/ cs = [] \/ cols_between df lo hi = [] ->
  classfill_text mean slice_is_view g df classCol siteCol idxRange = (Ok df, df).
Proof.
  intros (Hcs & Hss & Hloc) Hidle.
  unfold classfill_text, classfill_body.
  rewrite run_bind. simpl. rewrite run_bind. unfold lift. rewrite Hcs. simpl.
  rewrite run_bind. rewrite Hss. simpl.
  rewrite run_bind. unfold bind_data. simpl. rewrite Hloc. simpl.
  rewrite run_bind.
  set (h0 := Heap df (cols_between df lo hi)
               (if slice_is_view then Some lo else None)).
  rewrite (for_each_idle (unique ss) _ h0).
  - rewrite run_bind. unfold store_data. simpl. rewrite Hloc. simpl.
    by rewrite set_cols_between_same.
  - intros sv Hsv. unfold classfill_site.
    rewrite run_bind. simpl. rewrite run_bind. unfold lift. rewrite Hss.
    simpl. apply for_each_idle. intros cv Hcv. unfold classfill_class.
    rewrite run_bind. simpl. rewrite run_bind. unfold lift. rewrite Hcs.
    simpl. rewrite run_bind. simpl.
    destruct Hidle as [->|[->|Hd]].
    + by apply elem_of_nil in Hsv.
    + by apply elem_of_nil in Hcv.
    + by rewrite Hd.
Qed.

(** X9: in enigmatransformations.py a call of [classfill] never changes
    the frame: it raises [KeyError] when a column is not found,
    [NameError] as soon as there is a site, a class and a column of the
    range, and returns the frame as it is otherwise. *)
Theorem classfill_without_numpy df classCol siteCol idxRange :
  ((forall ss cs lo hi, ~ located df classCol siteCol idxRange ss cs lo hi) /\
   EnigmaTransformations.classfill mean slice_is_view df classCol siteCol
     idxRange = (Raise KeyError, df)) \/
  (exists ss cs lo hi,
     located df classCol siteCol idxRange ss cs lo hi /\
     ((ss <> [] /\ cs <> [] /\ cols_between df lo hi <> [] /\
       EnigmaTransformations.classfill mean slice_is_view df classCol siteCol
         idxRange = (Raise NameError, df)) \/
      ((ss = [] \/ cs = [] \/ cols_between df lo hi = []) /\
       EnigmaTransformations.classfill mean slice_is_view df classCol siteCol
         idxRange = (Ok df, df)))).
Proof.
  destruct (located_or_raise mean slice_is_view
              EnigmaTransformations.module_globals loop_pairs
              df classCol siteCol idxRange)
    as [(ss & cs & lo & hi & Hloc)|[Hr _]].
  - right. exists ss, cs, lo, hi. split; [done|].
    destruct (decide (ss = [])) as [Hs|Hs];
      [right; split; [auto|by eapply classfill_text_idle; eauto]|].
    destruct (decide (cs = [])) as [Hc|Hc];
      [right; split; [auto|by eapply classfill_text_idle; eauto]|].
    destruct (decide (cols_between df lo hi = [])) as [Hd|Hd];
      [right; split; [auto|by eapply classfill_text_idle; eauto]|].
    left. do 3 (split; [done|]). by eapply classfill_unbound_np.
  - left. split; [|done]. intros ss cs lo hi Hloc.
    destruct (decide (ss = [] \/ cs = [] \/ cols_between df lo hi = []))
      as [Hidle|Hbusy].
    + pose proof (classfill_text_idle EnigmaTransformations.module_globals
                    df classCol siteCol idxRange ss cs lo hi Hloc Hidle) as Hok.
      rewrite Hr in Hok. done.
    + pose proof (classfill_unbound_np mean slice_is_view df classCol siteCol
                    idxRange ss cs lo hi Hloc) as Hne.
      unfold EnigmaTransformations.classfill in Hne. rewrite Hr in Hne.
      assert (ss <> [] /\ cs <> [] /\ cols_between df lo hi <> [])
        as (Hs & Hc & Hd).
      { repeat split; intros E; apply Hbusy; auto. }
      specialize (Hne Hs Hc Hd). discriminate Hne.
Qed.

(** X10: in enigmatransformations.py [minorityclass] raises [KeyError]
    when the class column is absent and [NameError] whenever it is
    there. *)
Theorem minorityclass_without_numpy df classCol :
  ((classCol ∉ columns df) /\
   EnigmaTransformations.minorityclass df classCol = Raise KeyError) \/
  ((classCol ∈ columns df) /\
   EnigmaTransformations.minorityclass df classCol = Raise NameError).
Proof.
  unfold EnigmaTransformations.minorityclass, minorityclass_text, class_counts.
  destruct (getitem_cases df classCol) as [[col Hcol]|[Hn Hcol]].
  - right. split; [|by rewrite Hcol].
    apply getitem_Ok in Hcol as (k & l & Hk & _).
    apply get_loc_Ok in Hk. by eapply list_elem_of_lookup_2.
  - left. split; [done|]. by rewrite Hcol.
Qed.

End UnboundMore.

(** ** Runs of the further properties *)


Lemma located_site_missing :
  located frame_site_missing "class" "site" ("f", "f")
    [Some 0%Q; None; Some 0%Q] [Some 0%Q; Some 0%Q; Some 0%Q] 2 3.
Proof. by vm_compute. Qed.

Lemma located_one_group_filled :
  located frame_one_group_filled "class" "site" ("f", "f")
    [Some 0%Q; Some 0%Q] [Some 0%Q; Some 0%Q] 2 3.
Proof. by vm_compute. Qed.

(** X2 on the class column [0, NaN, NaN, NaN]: the label returned is
    NaN, though NaN is the most frequent entry. *)
Lemma minorityclass_missing_label_witness :
  exists major,
    EnigmaTransforms.minorityclass frame_class_missing "Dx" =
      Ok (NaN, class_count [Some 0%Q; None; None; None] major) /\
    major ∈ [Some 0%Q; None; None; None].
Proof.
  destruct (minorityclass_missing_label frame_class_missing "Dx"
              [Some 0%Q; None; None; None])
    as (major & Hrun & Hin & _).
  - reflexivity.
  - by apply (list_elem_of_lookup_2 _ 1).
  - exists major. split; [exact Hrun|exact Hin].
Defined.

(** X3 on the class column [0, 0, 0, 1]: the counts add up to 4. *)
Lemma class_counts_sum_witness :
  exists nClass,
    class_counts EnigmaTransforms.module_globals frame_classes "Dx" =
      Ok (unique [Some 0%Q; Some 0%Q; Some 0%Q; Some 1%Q], nClass) /\
    sumZ nClass = 4%Z.
Proof.
  destruct (class_counts_sum frame_classes "Dx"
              [Some 0%Q; Some 0%Q; Some 0%Q; Some 1%Q])
    as (nClass & Hrun & _ & Hsum & _).
  - reflexivity.
  - exists nClass. split; [exact Hrun|]. rewrite Hsum. reflexivity.
Defined.

(** X5 on a frame without a missing cell. *)
Lemma classfill_complete_frame_witness :
  EnigmaTransforms.classfill Qmean true frame_one_group_filled "class" "site"
    ("f", "f") = (Ok frame_one_group_filled, frame_one_group_filled).
Proof.
  apply (classfill_complete_frame Qmean true frame_one_group_filled
           "class" "site" ("f", "f") _ _ 2 3 located_one_group_filled).
  intros k lbl s r Hk Hdf. assert (k = 2) as -> by lia.
  injection Hdf as _ <-. by destruct r as [|[|r]].
Defined.

(** X6 on [frame_site_missing]: the second row has no site, and its
    cell of [f] is still missing after the call. *)
Lemma classfill_row_without_group_witness :
  exists df' s',
    EnigmaTransforms.classfill Qmean true frame_site_missing "class" "site"
      ("f", "f") = (Ok df', df') /\
    df' !! 2 = Some ("f", s') /\ s' !! 1 = Some NaN.
Proof.
  apply (classfill_row_without_group Qmean true frame_site_missing
           "class" "site" ("f", "f") _ _ 2 3 2 "f" [Some 1%Q; None; None] 1
           located_site_missing).
  - lia.
  - reflexivity.
  - reflexivity.
  - left. reflexivity.
Defined.


(** X8 on [frame_two_groups], the range from [g] back to [f]. *)
Lemma classfill_reversed_range_witness :
  EnigmaTransforms.classfill Qmean true frame_two_groups "class" "site"
    ("g", "f") = (Ok frame_two_groups, frame_two_groups).
Proof.
  apply (classfill_reversed_range Qmean true frame_two_groups
           "class" "site" ("g", "f")
           [Some 0%Q; Some 0%Q; Some 0%Q; Some 1%Q; Some 1%Q]
           [Some 0%Q; Some 0%Q; Some 0%Q; Some 1%Q; Some 1%Q] 2 1).
  - reflexivity.
  - reflexivity.
  - reflexivity.
  - reflexivity.
  - lia.
Defined.

(** X11 on [frame_two_groups]. *)
Lemma minorityclass_after_classfill_witness :
  EnigmaTransforms.minorityclass frame_two_groups_filled "class" =
    EnigmaTransforms.minorityclass frame_two_groups "class" /\
  EnigmaTransforms.minorityclass frame_two_groups_filled "site" =
    EnigmaTransforms.minorityclass frame_two_groups "site".
Proof.
  apply (minorityclass_after_classfill Qmean true frame_two_groups
           "class" "site" ("f", "g") frame_two_groups_filled
           frame_two_groups_filled).
  by vm_compute.
Defined.

(** X12 on the class columns [0, 0, 0, 1] and [1, 0, 0, 0]. *)
Lemma minorityclass_row_order_witness :
  exists minor minor' d,
    EnigmaTransforms.minorityclass frame_classes "Dx" = Ok (minor, d) /\
    EnigmaTransforms.minorityclass frame_classes_shuffled "Dx" = Ok (minor', d) /\
    class_count [Some 0%Q; Some 0%Q; Some 0%Q; Some 1%Q] minor =
    class_count [Some 1%Q; Some 0%Q; Some 0%Q; Some 0%Q] minor'.
Proof.
  apply (minorityclass_row_order frame_classes frame_classes_shuffled
           "Dx" "Dx"
           [Some 0%Q; Some 0%Q; Some 0%Q; Some 1%Q]
           [Some 1%Q; Some 0%Q; Some 0%Q; Some 0%Q]).
  - reflexivity.
  - reflexivity.
  - exact (Permutation_app_comm [Some 0%Q; Some 0%Q; Some 0%Q] [Some 1%Q]).
  - discriminate.
Defined.
